(** * moedelo-demo: chunking, collection management, ingestion and retrieval

    A shallow embedding of the Python sources
    [ingest_qdrant_cloud.py], [ingest_qdrant.py], [create_collection_moedelo.py],
    [demo_app.py] and [parser_moedelo.py], followed by the properties of the specification that
    were checked against it.

    Python [int] is [Z]; a Python [str] is the list of its code points, so
    that [len] counts characters and not bytes; a [dict] with string keys is
    a [gmap string _]. *)

From Stdlib Require Import ZArith Lia List Ascii String DecimalString.
From stdpp Require Import base option list gmap strings sorting.

Local Open Scope Z_scope.

(** ** Python strings *)

Module Py.

Definition codepoint := N.
Abbreviation str := (list codepoint).

(** Source literals are written as UTF-8 text and decoded to code points. *)
Record utf8_state := { pending : nat; partial : N; decoded : str }.

Definition utf8_step (st : utf8_state) (b : N) : utf8_state :=
  match pending st with
  | O =>
      if (b <? 128)%N then {| pending := 0; partial := 0; decoded := decoded st ++ [b] |}
      else if (b <? 224)%N then {| pending := 1; partial := b - 192; decoded := decoded st |}
      else if (b <? 240)%N then {| pending := 2; partial := b - 224; decoded := decoded st |}
      else {| pending := 3; partial := b - 240; decoded := decoded st |}
  | S k =>
      let acc := (partial st * 64 + (b - 128))%N in
      match k with
      | O => {| pending := 0; partial := 0; decoded := decoded st ++ [acc] |}
      | S _ => {| pending := k; partial := acc; decoded := decoded st |}
      end
  end.

Definition lit (s : string) : str :=
  decoded (fold_left utf8_step (map N_of_ascii (list_ascii_of_string s))
                     {| pending := 0; partial := 0; decoded := [] |}).

Definition SPACE : codepoint := 32%N.
Definition NEWLINE : codepoint := 10%N.

(** [len(s)], of a string or of a list *)
Definition len {A} (s : list A) : Z := Z.of_nat (length s).

(** [str(n)] for an [int] *)
Definition str_of_int (n : Z) : str := lit (NilZero.string_of_int (Z.to_int n)).

(** [c.isspace()] for one character, CPython's [_PyUnicode_IsWhitespace]. *)
Definition isspace (c : codepoint) : bool :=
  ((9 <=? c) && (c <=? 13) || (28 <=? c) && (c <=? 32)
   || (c =? 133) || (c =? 160) || (c =? 5760)
   || (8192 <=? c) && (c <=? 8202)
   || (c =? 8232) || (c =? 8233) || (c =? 8239) || (c =? 8287) || (c =? 12288))%N.

Fixpoint lstrip (s : str) : str :=
  match s with
  | c :: r => if isspace c then lstrip r else s
  | [] => []
  end.

Definition rstrip (s : str) : str := rev (lstrip (rev s)).

(** [s.strip()] *)
Definition strip (s : str) : str := rstrip (lstrip s).

(** [s.split()]: the maximal runs of non-whitespace characters, in order.
    [word] is the run being read. *)
Fixpoint split_from (s : str) (word : str) : list str :=
  match s with
  | [] => match word with [] => [] | _ => [word] end
  | c :: r =>
      if isspace c
      then match word with [] => split_from r [] | _ => word :: split_from r [] end
      else split_from r (word ++ [c])
  end.

Definition split (s : str) : list str := split_from s [].

(** [sep.join(l)] *)
Fixpoint join (sep : str) (l : list str) : str :=
  match l with
  | [] => []
  | [x] => x
  | x :: r => x ++ sep ++ join sep r
  end.

(** An index of a slice, brought into [0..n] as Python does. *)
Definition clamp (n i : Z) : Z :=
  if i <? 0 then Z.max (i + n) 0 else Z.min i n.

(** [s[lo:hi]] *)
Definition slice (s : str) (lo hi : Z) : str :=
  let lo' := clamp (len s) lo in
  let hi' := clamp (len s) hi in
  take (Z.to_nat (hi' - lo')) (drop (Z.to_nat lo') s).

(** [s.rfind(c)] for a one-character needle: the highest index holding
    [c], or [-1]. [i] is the index of the head, [found] the best so far. *)
Fixpoint rfind_from (s : str) (c : codepoint) (i found : Z) : Z :=
  match s with
  | [] => found
  | x :: r => rfind_from r c (i + 1) (if (x =? c)%N then i else found)
  end.

Definition rfind (s : str) (c : codepoint) : Z := rfind_from s c 0 (-1).

(** The order of [str]: lexicographic on code points. *)
Fixpoint str_leb (a b : str) : bool :=
  match a, b with
  | [], _ => true
  | _ :: _, [] => false
  | x :: a', y :: b' =>
      if (x <? y)%N then true else if (y <? x)%N then false else str_leb a' b'
  end.

(** [sorted(l)] for a list of strings *)
Definition sorted (l : list str) : list str :=
  merge_sort (fun a b => Is_true (str_leb a b)) l.

(** [enumerate(l, start)] *)
Fixpoint enumerate {A} (start : Z) (l : list A) : list (Z * A) :=
  match l with
  | [] => []
  | x :: r => (start, x) :: enumerate (start + 1) r
  end.

Definition SLASH : codepoint := 47%N.

(** [os.path.join(a, b)] of [posixpath] *)
Definition path_join (a b : str) : str :=
  match b with
  | 47%N :: _ => b
  | _ => match a with
         | [] => b
         | _ => if (default 0%N (last a) =? SLASH)%N then a ++ b else a ++ [SLASH] ++ b
         end
  end.

(** [os.path.basename(p)] of [posixpath]: [p[p.rfind('/') + 1:]] *)
Definition basename (p : str) : str := slice p (rfind p SLASH + 1) (len p).

End Py.
Import Py.

(** ** The chunker: [split_text] of [ingest_qdrant_cloud.py] *)

Definition CHUNK_SIZE : Z := 800.
Definition CHUNK_OVERLAP : Z := 100.

(** The variables of the [while] loop. *)
Record loop_state := { start : Z; chunks : list str }.

Section Chunker.
(** The module constants [CHUNK_SIZE] and [CHUNK_OVERLAP]. *)
Variables (size overlap : Z).

(** [text = " ".join(text.strip().split())] *)
Definition normalize (text : str) : str := join [SPACE] (split (strip text)).

(** The chunk of one iteration and the value of [end] after its trimming. *)
Definition window (text : str) (start : Z) : str * Z :=
  let end_ := start + size in
  let chunk := slice text start end_ in
  if end_ <? len text then
    let last_space := rfind chunk SPACE in
    if negb (last_space =? -1)
    then (slice chunk 0 last_space, start + last_space)
    else (chunk, end_)
  else (chunk, end_).

(** One iteration: [chunks.append(chunk)] and
    [start = max(end - CHUNK_OVERLAP, end)]. *)
Definition loop_body (text : str) (st : loop_state) : loop_state :=
  let '(chunk, end_) := window text (start st) in
  {| start := Z.max (end_ - overlap) end_; chunks := chunks st ++ [chunk] |}.

(** [while start < len(text)], run for at most [fuel] iterations;
    [None] when the loop is still running after them. *)
Fixpoint while_loop (fuel : nat) (text : str) (st : loop_state) : option loop_state :=
  match fuel with
  | O => None
  | S fuel' =>
      if start st <? len text
      then while_loop fuel' text (loop_body text st)
      else Some st
  end.

Definition split_text_with (fuel : nat) (text : str) : option (list str) :=
  let text := normalize text in
  match text with
  | [] => Some []
  | _ => chunks <$> while_loop fuel text {| start := 0; chunks := [] |}
  end.

(** The cursor and the chunk emitted at each iteration of the same loop:
    what an observer of [start] and of [chunks.append] sees. *)
Fixpoint spans (fuel : nat) (text : str) (st : loop_state) : list (Z * str) :=
  match fuel with
  | O => []
  | S fuel' =>
      if start st <? len text
      then (start st, fst (window text (start st))) :: spans fuel' text (loop_body text st)
      else []
  end.

End Chunker.

(** The variables as the loop finds them. *)
Definition loop_init : loop_state := {| start := 0; chunks := [] |}.

Definition split_text : nat -> str -> option (list str) :=
  split_text_with CHUNK_SIZE CHUNK_OVERLAP.

(** Each span starts where the one before it ended, the first one at [o]. *)
Fixpoint contiguous (o : Z) (sp : list (Z * str)) : Prop :=
  match sp with
  | [] => True
  | (o', c) :: r => o' = o /\ contiguous (o + len c) r
  end.

(** The length of the run of non-space characters that [s] begins with. *)
Fixpoint lead (s : str) : Z :=
  match s with
  | [] => 0
  | c :: r => if (c =? SPACE)%N then 0 else 1 + lead r
  end.

(** The length of the longest word: [cur] is the length of the run of
    non-space characters being read, [best] the longest one before it. *)
Fixpoint longest_run (s : str) (cur best : Z) : Z :=
  match s with
  | [] => Z.max cur best
  | c :: r =>
      if (c =? SPACE)%N then longest_run r 0 (Z.max cur best)
      else longest_run r (cur + 1) best
  end.

Definition longest_word (s : str) : Z := longest_run s 0 0.

Definition CHUNK_OVERLAP_nat : nat := Z.to_nat CHUNK_OVERLAP.

Definition long_word_text : str := lit "a " ++ replicate 900 98%N.
Definition two_blocks_text : str := replicate 500 120%N ++ [SPACE] ++ replicate 500 121%N.


(** ** Exceptions, collaborators and the monad of the scripts

    The scripts talk to three collaborators: the Qdrant server, the OpenAI
    embeddings endpoint and the operating system (files, [uuid4], standard
    output). What a collaborator answers is not fixed by the repository, so
    the answers are the fields of a class and every property below holds for
    all of its instances. The scripts' side of the conversation, the requests
    they send and the lines they print, is recorded in order in a trace. *)

Module Effects.

(** The exceptions the scripts tell apart: [UnexpectedResponse] carries
    [status_code]; every constructor carries the text of [str(e)]. *)
Inductive exn :=
| UnexpectedResponse (status_code : Z) (msg : str)
| IndexError (msg : str)
| RuntimeError (msg : str)
| Exception (msg : str).

Definition exn_str (e : exn) : str :=
  match e with
  | UnexpectedResponse _ m | IndexError m | RuntimeError m | Exception m => m
  end.

Inductive result (A : Type) := Ok (a : A) | Err (e : exn).
Arguments Ok {A} a.
Arguments Err {A} e.

(** A payload value. *)
Inductive value := VStr (s : str) | VInt (n : Z).

Inductive Distance := COSINE | EUCLID | DOT | MANHATTAN.
Record VectorParams := { size : Z; distance : Distance }.

(** [info.config.params.vectors]: absent, one [VectorParams], or a [dict]
    of named ones in insertion order. *)
Inductive VectorsConfig :=
| NoVectors
| SingleVector (p : VectorParams)
| NamedVectors (d : list (str * VectorParams)).

Record CollectionInfo := { vectors : VectorsConfig }.

Inductive PointId := IntId (n : Z) | StrId (s : str).

#[global] Instance PointId_eq_dec : EqDecision PointId.
Proof. solve_decision. Defined.

Section Points.
(** Python's [float]; the scripts only pass floats along. *)
Variable float : Type.

Record PointStruct :=
  { id : PointId; vector : list float; payload : gmap string value }.

Record Batch :=
  { ids : list PointId; vectors_ : list (list float);
    payloads : list (gmap string value) }.

Inductive Points := PointsBatch (b : Batch) | PointsList (l : list PointStruct).

Record ScoredPoint :=
  { sp_id : PointId; score : float; sp_payload : option (gmap string value) }.

(** What a script does that can be seen from outside, in order. *)
Inductive event :=
| Print (line : str)
| GetCollection (name : str)
| CreateCollection (name : str) (p : VectorParams)
| RecreateCollection (name : str) (p : VectorParams)
| Upsert (name : str) (points : Points)
| QueryPoints (name : str) (query : list float) (limit : Z) (with_payload : bool)
| EmbeddingsCreate (model input : str)
| Glob (pattern : str)
| ReadFile (path : str)
| Uuid4.
End Points.

Arguments id {float}. Arguments vector {float}. Arguments payload {float}.
Arguments ids {float}. Arguments vectors_ {float}. Arguments payloads {float}.
Arguments PointsBatch {float}. Arguments PointsList {float}.
Arguments sp_id {float}. Arguments score {float}. Arguments sp_payload {float}.
Arguments Print {float}. Arguments GetCollection {float}.
Arguments CreateCollection {float}. Arguments RecreateCollection {float}.
Arguments Upsert {float}. Arguments QueryPoints {float}.
Arguments EmbeddingsCreate {float}. Arguments Glob {float}.
Arguments ReadFile {float}. Arguments Uuid4 {float}.

(** The collaborators. [Env] is everything outside the process; each
    request is answered from it and may change it. *)
Class Services := {
  float : Type;
  (** [f"{x:.3f}"] *)
  format_3f : float -> str;
  Env : Type;
  qdrant_get_collection : str -> Env -> result CollectionInfo * Env;
  qdrant_create_collection : str -> VectorParams -> Env -> result unit * Env;
  qdrant_recreate_collection : str -> VectorParams -> Env -> result unit * Env;
  qdrant_upsert : str -> Points float -> Env -> result unit * Env;
  qdrant_query_points :
    str -> list float -> Z -> bool -> Env -> result (list (ScoredPoint float)) * Env;
  (** [client.embeddings.create(model, input).data[0].embedding] *)
  openai_embeddings_create : str -> str -> Env -> result (list float) * Env;
  os_glob : str -> Env -> list str * Env;
  os_read_file : str -> Env -> result str * Env;
  os_uuid4 : Env -> str * Env;
}.

Section Monad.
Context `{Services}.

Record world := { env : Env; trace : list (event float) }.

(** How a call ends: with a value, with an exception, or not at all
    (the loop of [split_text] outlived its fuel). *)
Inductive outcome (A : Type) := Return (a : A) | Raise (e : exn) | Diverge.
#[global] Arguments Return {A} a.
#[global] Arguments Raise {A} e.
#[global] Arguments Diverge {A}.

Definition M (A : Type) : Type := world -> outcome A * world.

Definition ret {A} (a : A) : M A := fun w => (Return a, w).
Definition raise {A} (e : exn) : M A := fun w => (Raise e, w).
Definition diverge {A} : M A := fun w => (Diverge, w).

Definition bind {A B} (m : M A) (k : A -> M B) : M B :=
  fun w =>
    match m w with
    | (Return a, w') => k a w'
    | (Raise e, w') => (Raise e, w')
    | (Diverge, w') => (Diverge, w')
    end.

(** [try: body except ...: handler]; a handler that does not match
    re-raises. *)
Definition try_except {A} (body : M A) (handler : exn -> M A) : M A :=
  fun w =>
    match body w with
    | (Raise e, w') => handler e w'
    | r => r
    end.

Definition emit (ev : event float) : M unit :=
  fun w => (Return tt, {| env := env w; trace := trace w ++ [ev] |}).

(** A request: recorded, then answered by the collaborator. *)
Definition request {A} (ev : event float) (answer : Env -> result A * Env) : M A :=
  fun w =>
    let '(r, e') := answer (env w) in
    (match r with Ok a => Return a | Err e => Raise e end,
     {| env := e'; trace := trace w ++ [ev] |}).

(** A request that cannot fail. *)
Definition ask {A} (ev : event float) (answer : Env -> A * Env) : M A :=
  fun w =>
    let '(a, e') := answer (env w) in
    (Return a, {| env := e'; trace := trace w ++ [ev] |}).

Definition print (line : str) : M unit := emit (Print line).

(** [for x in l: body], threading the variables the body assigns. *)
Fixpoint for_each {A S} (l : list A) (body : A -> S -> M S) (s : S) : M S :=
  match l with
  | [] => ret s
  | x :: r => bind (body x s) (for_each r body)
  end.

End Monad.

Declare Scope py_scope.
Delimit Scope py_scope with py.
Notation "x <- c ;; k" := (bind c (fun x => k))
  (at level 20, c at level 99, k at level 200, only parsing) : py_scope.
Notation "c ;; k" := (bind c (fun _ => k))
  (at level 100, k at level 200, only parsing, right associativity) : py_scope.

End Effects.
Import Effects.


(** ** [ingest_qdrant_cloud.py] *)

Module IngestCloud.
Local Open Scope py_scope.

Definition COLLECTION_NAME : str := lit "moedelo_reforma_2026".
Definition INPUT_DIR : str := lit "tokens".
Definition EMBEDDING_MODEL : str := lit "text-embedding-3-small".
Definition EMBEDDING_DIM : Z := 1536.

(** The lists and the counter that [ingest_files] fills. *)
Record batch_state {float : Type} :=
  { vectors : list (list float); payloads : list (gmap string value);
    ids : list PointId; pid : Z }.
Arguments batch_state : clear implicits.

Section Script.
Context `{Services}.

Definition embed_text (text : str) : M (list float) :=
  request (EmbeddingsCreate EMBEDDING_MODEL text)
          (openai_embeddings_create EMBEDDING_MODEL text).

(** [split_text(text)]; a loop that does not stop does not return. *)
Definition split_text_call (fuel : nat) (text : str) : M (list str) :=
  match split_text fuel text with
  | Some chunks => ret chunks
  | None => diverge
  end.

(** [str(size)] for [size] an [int] or [None] *)
Definition str_of_size (size : option Z) : str :=
  match size with
  | Some n => str_of_int n
  | None => lit "None"
  end.

(** [size] as the [try] block computes it: [vectors.size], or the size
    of the first named vector, or [None]; [list(...)[0]] of an empty
    [dict] raises. *)
Definition stored_size (info : CollectionInfo) : result (option Z) :=
  match Effects.vectors info with
  | SingleVector p => Ok (Some (Effects.size p))
  | NamedVectors d =>
      match d with
      | (_, p) :: _ => Ok (Some (Effects.size p))
      | [] => Err (IndexError (lit "list index out of range"))
      end
  | NoVectors => Ok None
  end.

Definition exists_line (size : option Z) : str :=
  lit "[✓] Коллекция '" ++ COLLECTION_NAME
    ++ lit "' существует, размер вектора = " ++ str_of_size size.

Definition mismatch_line (size : option Z) : str :=
  lit "[!] Несоответствие размерности: коллекция=" ++ str_of_size size
    ++ lit ", модель=" ++ str_of_int EMBEDDING_DIM.

Definition ensure_collection : M unit :=
  try_except
    (info <- request (GetCollection COLLECTION_NAME)
                     (qdrant_get_collection COLLECTION_NAME) ;;
     size <- match stored_size info with
             | Ok size => ret size
             | Err e => raise e
             end ;;
     print (exists_line size) ;;
     if bool_decide (size <> Some EMBEDDING_DIM)
     then print (mismatch_line size)
     else ret tt)
    (fun e =>
       match e with
       | UnexpectedResponse status_code _ =>
           if status_code =? 404
           then
             print (lit "[!] Коллекция '" ++ COLLECTION_NAME
                      ++ lit "' отсутствует — создаю...") ;;
             request (CreateCollection COLLECTION_NAME
                        {| size := EMBEDDING_DIM; distance := COSINE |})
                     (qdrant_create_collection COLLECTION_NAME
                        {| size := EMBEDDING_DIM; distance := COSINE |}) ;;
             print (lit "[+] Коллекция создана.")
           else raise e
       | _ => raise e
       end).

(** The body of [for ch in chunks]. *)
Definition embed_chunk (path : str) (ch : str) (st : batch_state float)
  : M (batch_state float) :=
  r <- try_except (emb <- embed_text ch ;; ret (Some emb))
                  (fun e => print (lit "Ошибка эмбеддинга: " ++ exn_str e) ;;
                            ret None) ;;
  match r with
  | None => ret st
  | Some emb =>
      ret {| vectors := vectors st ++ [emb];
             payloads := payloads st
               ++ [{[ "title"%string := VStr (basename path);
                      "content"%string := VStr ch ]}];
             ids := ids st ++ [IntId (pid st)];
             pid := pid st + 1 |}
  end.

(** The body of [for idx, path in enumerate(files, start=1)]. *)
Definition ingest_file (fuel : nat) (item : Z * str) (st : batch_state float)
  : M (batch_state float) :=
  let '(idx, path) := item in
  print (lit "[" ++ str_of_int idx ++ lit "] Файл: " ++ basename path) ;;
  text <- request (ReadFile path) (os_read_file path) ;;
  chunks <- split_text_call fuel text ;;
  match chunks with
  | [] => print (lit "   Пусто — пропуск.") ;; ret st
  | _ => for_each chunks (embed_chunk path) st
  end.

Definition ingest_files (fuel : nat) : M unit :=
  print (lit "Загрузка данных в '" ++ COLLECTION_NAME ++ lit "'...") ;;
  print (lit "Папка: " ++ INPUT_DIR) ;;
  ensure_collection ;;
  found <- ask (Glob (path_join INPUT_DIR (lit "*.txt")))
               (os_glob (path_join INPUT_DIR (lit "*.txt"))) ;;
  let files := sorted found in
  print (lit "Найдено файлов: " ++ str_of_int (len files)) ;;
  match files with
  | [] => print (lit "Нет файлов для обработки.")
  | _ =>
      st <- for_each (enumerate 1 files) (ingest_file fuel)
              {| vectors := []; payloads := []; ids := []; pid := 1 |} ;;
      request (Upsert COLLECTION_NAME
                 (PointsBatch {| Effects.ids := ids st; vectors_ := vectors st;
                                 Effects.payloads := payloads st |}))
              (qdrant_upsert COLLECTION_NAME
                 (PointsBatch {| Effects.ids := ids st; vectors_ := vectors st;
                                 Effects.payloads := payloads st |})) ;;
      print (lit "[✓] Загружено " ++ str_of_int (len (vectors st))
               ++ lit " фрагментов в Qdrant Cloud.")
  end.

End Script.
End IngestCloud.


(** ** [ingest_qdrant.py] *)

Module IngestLocal.
Local Open Scope py_scope.

Definition EMBEDDING_MODEL : str := lit "text-embedding-3-small".
Definition EMBEDDING_DIM : Z := 1536.

Definition DOCUMENTS : list str :=
  [ lit "С 2026 года в РФ планируется комплексная реформа налоговой системы для малого и среднего бизнеса.";
    lit "Упрощённая система налогообложения (УСН) будет разделена на режимы с разным набором лимитов и требований к отчётности.";
    lit "Ставка НДС 20% сохраняется, но расширяются требования к электронному документообороту и прослеживаемости операций.";
    lit "Вводятся дополнительные критерии для признания компании высокотехнологичной и применения льготных ставок.";
    lit "Для самозанятых планируется повышение максимального лимита дохода и уточнение порядка взаимодействия с заказчиками – юрлицами.";
    lit "Часть налоговой отчётности будет переходить в полностью беззаявительный режим через цифровые сервисы ФНС.";
    lit "Ужесточаются требования к деловой цели операций и документальному подтверждению экономической обоснованности расходов.";
    lit "Планируется запуск цифровой платформы, которая автоматически рассчитывает налоговую нагрузку и напоминает о сроках уплаты.";
    lit "Для компаний на УСН изменяются лимиты по доходам и остаточной стоимости основных средств.";
    lit "Отдельные льготы будут привязаны к отраслевой принадлежности и уровню инвестиций в развитие бизнеса." ].

Section Script.
Context `{Services}.
(** [os.getenv("COLLECTION_NAME")] *)
Variable getenv_COLLECTION_NAME : option str.

Definition COLLECTION_NAME : str :=
  default (lit "moedelo_reforma_2026") getenv_COLLECTION_NAME.

Definition get_embedding (text : str) : M (list float) :=
  request (EmbeddingsCreate EMBEDDING_MODEL text)
          (openai_embeddings_create EMBEDDING_MODEL text).

(** [except Exception] takes every exception. *)
Definition ensure_collection : M unit :=
  try_except
    (request (GetCollection COLLECTION_NAME)
             (qdrant_get_collection COLLECTION_NAME) ;;
     print (lit "Коллекция '" ++ COLLECTION_NAME
              ++ lit "' уже существует, переиспользуем."))
    (fun _ =>
       print (lit "Коллекция '" ++ COLLECTION_NAME
                ++ lit "' не найдена, создаём новую...") ;;
       request (CreateCollection COLLECTION_NAME
                  {| size := EMBEDDING_DIM; distance := COSINE |})
               (qdrant_create_collection COLLECTION_NAME
                  {| size := EMBEDDING_DIM; distance := COSINE |}) ;;
       print (lit "Коллекция '" ++ COLLECTION_NAME ++ lit "' создана.")).

(** The body of [for idx, doc in enumerate(DOCUMENTS, start=1)]. *)
Definition ingest_document (item : Z * str) (points : list (PointStruct float))
  : M (list (PointStruct float)) :=
  let '(idx, doc) := item in
  print (lit "[" ++ str_of_int idx ++ lit "/" ++ str_of_int (len DOCUMENTS)
           ++ lit "] Обработка документа...") ;;
  vector <- get_embedding doc ;;
  uuid <- ask Uuid4 os_uuid4 ;;
  ret (points
         ++ [{| id := StrId uuid; vector := vector;
                payload := {[ "text"%string := VStr doc;
                              "source"%string := VStr (lit "moedelo_reforma_2026_demo");
                              "index"%string := VInt idx ]} |}]).

Definition ingest_documents : M unit :=
  print (lit "Инициализация коллекции Qdrant...") ;;
  ensure_collection ;;
  print (lit "Подготовлено документов: " ++ str_of_int (len DOCUMENTS)) ;;
  points <- for_each (enumerate 1 DOCUMENTS) ingest_document [] ;;
  request (Upsert COLLECTION_NAME (PointsList points))
          (qdrant_upsert COLLECTION_NAME (PointsList points)) ;;
  print (lit "Загружено " ++ str_of_int (len points)
           ++ lit " фрагментов в коллекцию '" ++ COLLECTION_NAME ++ lit "'.") ;;
  print (lit "Готово. Мини-база знаний по реформе 2026 загружена в Qdrant.").

End Script.
End IngestLocal.

(** ** [create_collection_moedelo.py] *)

Module CreateCollection.
Local Open Scope py_scope.

Section Script.
Context `{Services}.
(** [os.getenv] of the three variables the script reads. *)
Variables (QDRANT_URL QDRANT_API_KEY getenv_QDRANT_COLLECTION_NAME : option str).

Definition COLLECTION_NAME : str :=
  default (lit "moedelo_reforma_2026") getenv_QDRANT_COLLECTION_NAME.

(** [not x] for [x] a string or [None] *)
Definition unset (x : option str) : bool :=
  match x with
  | None | Some [] => true
  | Some _ => false
  end.

Definition main : M unit :=
  if unset QDRANT_URL then raise (RuntimeError (lit "QDRANT_URL не задан в .env"))
  else if unset QDRANT_API_KEY
  then raise (RuntimeError (lit "QDRANT_API_KEY не задан в .env"))
  else
    request (RecreateCollection COLLECTION_NAME {| size := 1536; distance := COSINE |})
            (qdrant_recreate_collection COLLECTION_NAME
               {| size := 1536; distance := COSINE |}) ;;
    print (lit "Коллекция '" ++ COLLECTION_NAME ++ lit "' создана/пересоздана.").

End Script.
End CreateCollection.

(** ** [demo_app.py]: retrieval *)

Module DemoApp.
Local Open Scope py_scope.

Definition COLLECTION_NAME : str := lit "moedelo_reforma_2026".

(** [str(v)] inside an f-string *)
Definition format_value (v : value) : str :=
  match v with
  | VStr s => s
  | VInt n => str_of_int n
  end.

Section Script.
Context `{Services}.

Definition embed_text (text : str) : M (list float) :=
  request (EmbeddingsCreate (lit "text-embedding-3-small") text)
          (openai_embeddings_create (lit "text-embedding-3-small") text).

(** What one iteration over [res.points] appends to [context_chunks]
    and to [debug_lines]. *)
Definition render (item : Z * ScoredPoint float) : str * str :=
  let '(idx, p) := item in
  let payload := default ∅ (sp_payload p) in
  let title := default (VStr []) (payload !! "title"%string) in
  let content := default (VStr []) (payload !! "content"%string) in
  let score := Effects.score p in
  (lit "[" ++ str_of_int idx ++ lit "] " ++ format_value title
     ++ [NEWLINE] ++ format_value content,
   str_of_int idx ++ lit ") score=" ++ format_3f score
     ++ lit ", title=" ++ format_value title).

Definition search_qdrant (query_text : str) (top_k : Z) : M (str * str) :=
  query_vec <- embed_text query_text ;;
  points <- request (QueryPoints COLLECTION_NAME query_vec top_k true)
                    (qdrant_query_points COLLECTION_NAME query_vec top_k true) ;;
  match points with
  | [] => ret ([], lit "Ничего не найдено в коллекции.")
  | _ =>
      let rendered := render <$> enumerate 1 points in
      let context :=
        join ([NEWLINE; NEWLINE] ++ lit "---" ++ [NEWLINE; NEWLINE]) rendered.*1 in
      let debug_info :=
        lit "Найденные фрагменты:" ++ [NEWLINE] ++ join [NEWLINE] rendered.*2 in
      ret (context, debug_info)
  end.

End Script.
End DemoApp.


(** ** [demo_app.py]: answering

    [ask_llm], [transcribe_audio] and [handle_query] talk to two more
    endpoints of OpenAI. Their requests, and the traceback that
    [handle_query] prints, are recorded beside the events of the other
    scripts. The [temperature] and the [float] it is are passed along and
    not recorded. *)

Module DemoChat.

Class ChatServices `{Services} := {
  (** [client.chat.completions.create(model, messages, temperature)
      .choices[0].message.content], [None] when the message has no content;
      a message is its [role] and its [content] *)
  openai_chat_completions_create :
    str -> list (str * str) -> Env -> result (option str) * Env;
  (** [open(path, "rb")] *)
  os_open_rb : str -> Env -> result unit * Env;
  (** [client.audio.transcriptions.create(model, file=f).text] for the
      file [f] opened at [path] *)
  openai_audio_transcriptions_create : str -> str -> Env -> result str * Env;
}.

Section Script.
Context `{ChatServices}.

Inductive chat_event :=
| Core (ev : event float)
| ChatCompletion (model : str) (messages : list (str * str))
| OpenFile (path : str)
| Transcription (model path : str)
| PrintExc (e : exn).

Record chat_world := { cenv : Env; ctrace : list chat_event }.

Definition C (A : Type) : Type := chat_world -> outcome A * chat_world.

Definition cret {A} (a : A) : C A := fun w => (Return a, w).
Definition craise {A} (e : exn) : C A := fun w => (Raise e, w).

Definition cbind {A B} (m : C A) (k : A -> C B) : C B :=
  fun w =>
    match m w with
    | (Return a, w') => k a w'
    | (Raise e, w') => (Raise e, w')
    | (Diverge, w') => (Diverge, w')
    end.

(** [try: body except Exception as e: handler]. Every value of [exn]
    stands for an instance of [Exception], so the handler takes them all;
    what is no [Exception] ([KeyboardInterrupt], [SystemExit]) has no
    value here, and neither handler of [handle_query] would take it. *)
Definition ctry {A} (body : C A) (handler : exn -> C A) : C A :=
  fun w =>
    match body w with
    | (Raise e, w') => handler e w'
    | r => r
    end.

Definition cemit (ev : chat_event) : C unit :=
  fun w => (Return tt, {| cenv := cenv w; ctrace := ctrace w ++ [ev] |}).

Definition crequest {A} (ev : chat_event) (answer : Env -> result A * Env) : C A :=
  fun w =>
    let '(r, e') := answer (cenv w) in
    (match r with Ok a => Return a | Err e => Raise e end,
     {| cenv := e'; ctrace := ctrace w ++ [ev] |}).

(** A call of a function of the other monad: what it sends is appended. *)
Definition lift {A} (m : M A) : C A :=
  fun w =>
    let '(r, w') := m {| env := cenv w; trace := [] |} in
    (r, {| cenv := env w'; ctrace := ctrace w ++ (Core <$> trace w') |}).

Definition nl : str := [NEWLINE].

Definition SYSTEM_PROMPT : str :=
  lit "Ты внутренний AI-ассистент компании «Моё дело» для предпринимателей и бухгалтеров."
    ++ nl ++ nl
    ++ lit "Твоя задача — помогать разбираться именно в налоговой реформе 2026 года." ++ nl
    ++ lit "Отвечай:" ++ nl
    ++ lit "• кратко и по делу," ++ nl
    ++ lit "• простым, понятным языком без лишней бюрократии," ++ nl
    ++ lit "• строго опираясь на переданный контекст (фрагменты базы знаний)." ++ nl ++ nl
    ++ lit "Если в контексте нет достаточной информации для точного ответа:" ++ nl
    ++ lit "• честно скажи, что данных недостаточно," ++ nl
    ++ lit "• НЕ выдумывай нормы законодательства и конкретные цифры," ++ nl
    ++ lit "• можешь предложить сформулировать вопрос точнее." ++ nl ++ nl
    ++ lit "Не давай общих рассуждений вне темы реформы 2026 года и не используй контекст, "
    ++ lit "который тебе явно не передан.".

(** The [user] message of [ask_llm]. *)
Definition user_content (question context : str) : str :=
  match context with
  | _ :: _ =>
      lit "Вопрос пользователя:" ++ nl ++ question ++ nl ++ nl
        ++ lit "Контекст по реформе 2026 (фрагменты базы знаний):" ++ nl ++ context
  | [] =>
      lit "Вопрос пользователя:" ++ nl ++ question ++ nl ++ nl
        ++ lit "Внимание: контекст из базы знаний не найден. "
        ++ lit "Если ты не уверен, ответь, что информации недостаточно для точного ответа."
  end.

Definition ask_llm (question context : str) : C str :=
  cbind
    (crequest (ChatCompletion (lit "gpt-4o-mini")
                 [(lit "system", SYSTEM_PROMPT); (lit "user", user_content question context)])
              (openai_chat_completions_create (lit "gpt-4o-mini")
                 [(lit "system", SYSTEM_PROMPT); (lit "user", user_content question context)]))
    (fun content =>
       match content with
       | Some answer => cret (strip answer)
       | None => craise (Exception (lit "'NoneType' object has no attribute 'strip'"))
       end).

(** The file is opened first; the request is sent only when that
    succeeded. Leaving the [with] block closes the file, which nothing
    here observes. *)
Definition transcribe_audio (audio_path : str) : C str :=
  cbind (crequest (OpenFile audio_path) (os_open_rb audio_path))
    (fun _ =>
  cbind (crequest (Transcription (lit "gpt-4o-transcribe") audio_path)
                  (openai_audio_transcriptions_create (lit "gpt-4o-transcribe") audio_path))
    (fun text => cret (strip text))).

Definition audio_failed (e : exn) : str :=
  lit "Не удалось распознать аудио. " ++ lit "Ошибка: " ++ exn_str e ++ nl ++ nl
    ++ lit "Попробуйте задать вопрос текстом.".

Definition ask_for_question : str :=
  lit "Пожалуйста, задайте вопрос текстом или голосом 🙂".

Definition internal_error (e : exn) : str :=
  lit "⚠️ В демо-версии ассистента произошла внутренняя ошибка." ++ nl
    ++ lit "`" ++ exn_str e ++ lit "`" ++ nl ++ nl
    ++ lit "Проверьте, запущен ли Qdrant и корректен ли OPENAI_API_KEY.".

(** [parts], joined by newlines. *)
Definition reply (question answer context debug_info : str) : str :=
  join nl
    ([lit "**Вопрос:** " ++ question ++ nl;
      lit "**Ответ ассистента:**" ++ nl ++ answer]
       ++ match context with
          | _ :: _ =>
              [nl ++ lit "---" ++ nl
                 ++ lit "**Использованный контекст из базы знаний:**" ++ nl;
               context]
          | [] => []
          end
       ++ [nl ++ lit "---" ++ nl
             ++ lit "<details><summary>Отладочная информация (для демо)</summary>"
             ++ nl ++ nl;
           debug_info;
           nl ++ lit "</details>"]).

(** Steps 2 to 4 of [handle_query], once the question is known. *)
Definition answer_question (question : str) : C str :=
  match question with
  | [] => cret ask_for_question
  | _ =>
      cbind (lift (DemoApp.search_qdrant question 5))
            (fun found =>
               let '(context, debug_info) := found in
               cbind (ask_llm question context)
                     (fun answer => cret (reply question answer context debug_info)))
  end.

(** [text_question] and [audio_file] are a string or [None]. The inner
    [try] holds the transcription alone; its handler returns from
    [handle_query] with the message (the left case). *)
Definition handle_query (text_question audio_file : option str) : C str :=
  ctry
    (let question := strip (default [] text_question) in
     match question, audio_file with
     | [], Some (c :: path) =>
         cbind (ctry (cbind (transcribe_audio (c :: path)) (fun q => cret (inr q)))
                     (fun e => cret (inl (audio_failed e))))
               (fun r =>
                  match r with
                  | inl message => cret message
                  | inr question => answer_question question
                  end)
     | _, _ => answer_question question
     end)
    (fun e => cbind (cemit (PrintExc e)) (fun _ => cret (internal_error e))).

End Script.
End DemoChat.

(** ** [parser_moedelo.py]

    The script that fills [tokens/]: it reads the list of articles from
    the knowledge page, downloads each one and saves it as a text file.
    What BeautifulSoup, [requests] and [urllib] do is left to the
    collaborators. *)

Module Parser.

Definition BASE_URL : str := lit "https://www.moedelo.org/club/article-knowledge".
Definition OUTPUT_DIR : str := lit "tokens".

(** [s.startswith(prefix)] *)
Fixpoint startswith (s prefix : str) : bool :=
  match prefix, s with
  | [], _ => true
  | _ :: _, [] => false
  | y :: prefix', x :: s' => (x =? y)%N && startswith s' prefix'
  end.

(** [part in s] for two strings *)
Fixpoint contains (part s : str) : bool :=
  startswith s part || match s with [] => false | _ :: r => contains part r end.

(** [s.replace(old, new)] for a one-character [old] *)
Definition replace (s : str) (old : codepoint) (new : str) : str :=
  flat_map (fun c => if (c =? old)%N then new else [c]) s.

Definition ZERO : codepoint := 48%N.

(** [f"{n:02d}"]: zeros on the left up to two characters; a number that
    has a sign is already that long. *)
Definition format_02d (n : Z) : str :=
  let digits := str_of_int n in
  replicate (Z.to_nat (2 - len digits)) ZERO ++ digits.

(** [safe_title] of [save_article] *)
Definition safe_title (title : str) : str := strip (replace title NEWLINE [SPACE]).

(** [filename] of [save_article] *)
Definition article_filename (index : Z) : str :=
  lit "moedelo_article_" ++ format_02d index ++ lit ".txt".

(** [path] of [save_article] *)
Definition article_path (index : Z) : str := path_join OUTPUT_DIR (article_filename index).

(** What [save_article] writes to the file. *)
Definition article_text (title content : str) : str :=
  safe_title title ++ [NEWLINE; NEWLINE] ++ content.

(** The collaborators. [Site] is the web site and the disk; what
    BeautifulSoup makes of a page is a function of the page. *)
Class Web := {
  Site : Type;
  (** [resp = session.get(url, timeout=20)], [resp.raise_for_status()],
      then [resp.text] *)
  session_get : str -> Site -> result str * Site;
  (** [(a["href"], list(a.stripped_strings))] for each [a] of
      [BeautifulSoup(html, "lxml").find_all("a", href=True)] *)
  soup_anchors : str -> list (str * list str);
  (** [urllib.parse.urljoin(base, href)] *)
  urljoin : str -> str -> str;
  (** [extract_article_text(html)], a walk through the parsed page *)
  extract_article_text : str -> str;
  (** [os.makedirs(path, exist_ok=True)] *)
  os_makedirs : str -> Site -> result unit * Site;
  (** [with open(path, "w", encoding="utf-8") as f: f.write(text)] *)
  os_write_file : str -> str -> Site -> result unit * Site;
  (** [time.sleep(seconds)] *)
  time_sleep : Site -> Site;
}.

Section Script.
Context `{Web}.

Inductive web_event :=
| Printed (line : str)
| HttpGet (url : str)
| MakeDirs (path : str)
| WriteFile (path text : str)
| Sleep.

Record web_world := { site : Site; log : list web_event }.

Definition W (A : Type) : Type := web_world -> outcome A * web_world.

Definition wret {A} (a : A) : W A := fun w => (Return a, w).

Definition wbind {A B} (m : W A) (k : A -> W B) : W B :=
  fun w =>
    match m w with
    | (Return a, w') => k a w'
    | (Raise e, w') => (Raise e, w')
    | (Diverge, w') => (Diverge, w')
    end.

Definition wtry {A} (body : W A) (handler : exn -> W A) : W A :=
  fun w =>
    match body w with
    | (Raise e, w') => handler e w'
    | r => r
    end.

Definition wemit (ev : web_event) : W unit :=
  fun w => (Return tt, {| site := site w; log := log w ++ [ev] |}).

Definition wrequest {A} (ev : web_event) (answer : Site -> result A * Site) : W A :=
  fun w =>
    let '(r, s') := answer (site w) in
    (match r with Ok a => Return a | Err e => Raise e end,
     {| site := s'; log := log w ++ [ev] |}).

Definition wprint (line : str) : W unit := wemit (Printed line).

Definition sleep : W unit :=
  fun w => (Return tt, {| site := time_sleep (site w); log := log w ++ [Sleep] |}).

(** The pages that are almost surely no article. *)
Definition service_page (href : str) : bool :=
  existsb (fun part => contains part href)
          [lit "article-knowledge"; lit "authors"; lit "tag="].

(** The [for] loop of [collect_article_links] over the anchors of the
    page; [links] is the [dict] built so far, in insertion order. The
    [break] ends the loop with the links found. *)
Fixpoint scan_anchors (anchors : list (str * list str)) (limit : Z)
         (links : list (str * str)) : list (str * str) :=
  match anchors with
  | [] => links
  | (href, stripped_strings) :: rest =>
      if negb (startswith href (lit "/club/")) then scan_anchors rest limit links
      else if service_page href then scan_anchors rest limit links
      else
        let url := urljoin BASE_URL href in
        let title := join [SPACE] stripped_strings in
        if bool_decide (title = []) || (len title <? 10) then scan_anchors rest limit links
        else if bool_decide (url ∈ links.*1) then scan_anchors rest limit links
        else
          let links := links ++ [(url, title)] in
          if limit <=? len links then links else scan_anchors rest limit links
  end.

Definition collect_article_links (limit : Z) : W (list (str * str)) :=
  wbind (wprint (lit "Скачиваю список статей с " ++ BASE_URL ++ lit " ..."))
    (fun _ =>
  wbind (wrequest (HttpGet BASE_URL) (session_get BASE_URL))
    (fun html =>
       let result := scan_anchors (soup_anchors html) limit [] in
  wbind (wprint (lit "Найдено статей: " ++ str_of_int (len result)))
    (fun _ => wret result))).

(** The two writes of the [with] block are one event. *)
Definition save_article (title content : str) (index : Z) : W str :=
  wbind (wrequest (MakeDirs OUTPUT_DIR) (os_makedirs OUTPUT_DIR))
    (fun _ =>
       let path := article_path index in
  wbind (wrequest (WriteFile path (article_text title content))
                  (os_write_file path (article_text title content)))
    (fun _ => wret path)).

(** One turn of the loop of [main] over the articles; [total] is
    [len(articles)]. *)
Definition visit (total : Z) (item : Z * (str * str)) (saved_paths : list str)
  : W (list str) :=
  let '(i, (url, title)) := item in
  wbind (wprint ([NEWLINE] ++ lit "[" ++ str_of_int i ++ lit "/" ++ str_of_int total
                   ++ lit "] Скачиваю статью:"))
    (fun _ =>
  wbind (wprint (lit "  URL:   " ++ url))
    (fun _ =>
  wbind (wprint (lit "  Title: " ++ title))
    (fun _ =>
  wbind (wtry (wbind (wrequest (HttpGet url) (session_get url))
                     (fun html => wret (Some html)))
              (fun e =>
                 wbind (wprint (lit "[!] Ошибка при запросе статьи: " ++ exn_str e))
                       (fun _ => wret None)))
    (fun resp =>
       match resp with
       | None => wret saved_paths
       | Some html =>
           let text := extract_article_text html in
           if bool_decide (text = []) || (len text <? 200)
           then
             wbind (wprint (lit "[!] Похоже, текст получился слишком коротким, пропускаю."))
                   (fun _ => wret saved_paths)
           else
             wbind (save_article title text i)
               (fun path =>
             wbind (wprint (lit "[+] Статья сохранена: " ++ path))
               (fun _ =>
             wbind sleep
               (fun _ => wret (saved_paths ++ [path]))))
       end)))).

Fixpoint for_articles (total : Z) (items : list (Z * (str * str)))
         (saved_paths : list str) : W (list str) :=
  match items with
  | [] => wret saved_paths
  | item :: rest =>
      wbind (visit total item saved_paths) (for_articles total rest)
  end.

Fixpoint print_paths (saved_paths : list str) : W unit :=
  match saved_paths with
  | [] => wret tt
  | p :: rest => wbind (wprint (lit " -" ++ [SPACE] ++ p)) (fun _ => print_paths rest)
  end.

Definition main : W unit :=
  wbind (collect_article_links 30)
    (fun articles =>
       match articles with
       | [] =>
           wprint (lit "Не удалось найти статьи. Проверь, не поменялась ли структура страницы.")
       | _ =>
  wbind (for_articles (len articles) (enumerate 1 articles) [])
    (fun saved_paths =>
  wbind (wprint ([NEWLINE] ++ lit "=== Итог ==="))
    (fun _ =>
  wbind (wprint (lit "Сохранено статей: " ++ str_of_int (len saved_paths)))
    (fun _ =>
  wbind (print_paths saved_paths)
    (fun _ =>
       wprint ([NEWLINE] ++ lit "Теперь можно снова запустить ingest_qdrant.py, "
                 ++ lit "чтобы загрузить новые файлы в коллекцию 'moedelo_reforma_2026'.")))))
       end).

(** The paths of the files written, in order. *)
Definition written_paths (evs : list web_event) : list str :=
  omap (fun ev => match ev with WriteFile path _ => Some path | _ => None end) evs.

End Script.
End Parser.

(** ** An in-memory stand-in for the collaborators

    One instance of [Services] on which the scripts can be run: a store of
    collections, a directory of text files, and an embeddings endpoint that
    fails on chosen requests. Floats are stood in for by integers. *)

Module InMemory.

Record collection :=
  { config : VectorsConfig; stored : list (PointStruct Z) }.

Record mem_env :=
  { collections : list (str * collection);
    files : list (str * str);
    (** a failure of the transport or of authentication, met by every request *)
    fault : option exn;
    embed_calls : nat;
    (** the embedding requests that fail, counted from 1 *)
    embed_fails : list nat;
    uuids : nat }.

Fixpoint lookup_name {A} (name : str) (l : list (str * A)) : option A :=
  match l with
  | [] => None
  | (k, v) :: r => if bool_decide (k = name) then Some v else lookup_name name r
  end.

Definition remove_name {A} (name : str) (l : list (str * A)) : list (str * A) :=
  filter (fun kv => kv.1 <> name) l.

Definition with_collections (e : mem_env) (cs : list (str * collection)) : mem_env :=
  {| collections := cs; files := files e; fault := fault e;
     embed_calls := embed_calls e; embed_fails := embed_fails e; uuids := uuids e |}.

Definition get_collection (name : str) (e : mem_env) : result CollectionInfo * mem_env :=
  match fault e with
  | Some x => (Err x, e)
  | None =>
      match lookup_name name (collections e) with
      | Some c => (Ok {| Effects.vectors := config c |}, e)
      | None => (Err (UnexpectedResponse 404 (lit "Not found: Collection doesn't exist!")), e)
      end
  end.

Definition create_collection (name : str) (p : VectorParams) (e : mem_env)
  : result unit * mem_env :=
  match fault e with
  | Some x => (Err x, e)
  | None =>
      match lookup_name name (collections e) with
      | Some _ => (Err (UnexpectedResponse 409 (lit "Collection already exists!")), e)
      | None =>
          (Ok tt, with_collections e
                    (collections e ++ [(name, {| config := SingleVector p; stored := [] |})]))
      end
  end.

Definition recreate_collection (name : str) (p : VectorParams) (e : mem_env)
  : result unit * mem_env :=
  match fault e with
  | Some x => (Err x, e)
  | None =>
      (Ok tt, with_collections e
                (remove_name name (collections e)
                   ++ [(name, {| config := SingleVector p; stored := [] |})]))
  end.

Fixpoint zip_batch (ids : list PointId) (vs : list (list Z)) (ps : list (gmap string value))
  : list (PointStruct Z) :=
  match ids, vs, ps with
  | i :: ids', v :: vs', p :: ps' =>
      {| id := i; vector := v; payload := p |} :: zip_batch ids' vs' ps'
  | _, _, _ => []
  end.

Definition points_list (points : Points Z) : list (PointStruct Z) :=
  match points with
  | PointsList l => l
  | PointsBatch b => zip_batch (Effects.ids b) (vectors_ b) (Effects.payloads b)
  end.

Definition upsert (name : str) (points : Points Z) (e : mem_env) : result unit * mem_env :=
  match fault e with
  | Some x => (Err x, e)
  | None =>
      match lookup_name name (collections e) with
      | None => (Err (UnexpectedResponse 404 (lit "Not found: Collection doesn't exist!")), e)
      | Some c =>
          let new := points_list points in
          let kept := filter (fun q => id q ∉ id <$> new) (stored c) in
          (Ok tt, with_collections e
                    (remove_name name (collections e)
                       ++ [(name, {| config := config c; stored := kept ++ new |})]))
      end
  end.

(** No similarity: the first [limit] stored points, each with score 0. *)
Definition query_points (name : str) (query : list Z) (limit : Z) (with_payload : bool)
                        (e : mem_env) : result (list (ScoredPoint Z)) * mem_env :=
  match fault e with
  | Some x => (Err x, e)
  | None =>
      match lookup_name name (collections e) with
      | None => (Err (UnexpectedResponse 404 (lit "Not found: Collection doesn't exist!")), e)
      | Some c =>
          (Ok ((fun q => {| sp_id := id q; score := 0;
                            sp_payload := if with_payload then Some (payload q) else None |})
                 <$> take (Z.to_nat limit) (stored c)), e)
      end
  end.

Definition embeddings_create (model input : str) (e : mem_env)
  : result (list Z) * mem_env :=
  let n := S (embed_calls e) in
  let e' := {| collections := collections e; files := files e; fault := fault e;
               embed_calls := n; embed_fails := embed_fails e; uuids := uuids e |} in
  if bool_decide (n ∈ embed_fails e)
  then (Err (Exception (lit "embedding request failed")), e')
  else (Ok [len input], e').

(** The directory holds nothing but the [.txt] files of [files]. *)
Definition glob (pattern : str) (e : mem_env) : list str * mem_env :=
  ((files e).*1, e).

Definition read_file (path : str) (e : mem_env) : result str * mem_env :=
  match lookup_name path (files e) with
  | Some text => (Ok text, e)
  | None => (Err (Exception (lit "No such file or directory")), e)
  end.

Definition uuid4 (e : mem_env) : str * mem_env :=
  (lit "uuid-" ++ str_of_int (Z.of_nat (uuids e)),
   {| collections := collections e; files := files e; fault := fault e;
      embed_calls := embed_calls e; embed_fails := embed_fails e; uuids := S (uuids e) |}).

#[export] Instance services : Services :=
  {| float := Z;
     format_3f := fun z => str_of_int z ++ lit ".000";
     Env := mem_env;
     qdrant_get_collection := get_collection;
     qdrant_create_collection := create_collection;
     qdrant_recreate_collection := recreate_collection;
     qdrant_upsert := upsert;
     qdrant_query_points := query_points;
     openai_embeddings_create := embeddings_create;
     os_glob := glob;
     os_read_file := read_file;
     os_uuid4 := uuid4 |}.

Definition empty_env : mem_env :=
  {| collections := []; files := []; fault := None;
     embed_calls := 0; embed_fails := []; uuids := 0 |}.

Definition mk_world (e : mem_env) (tr : list (event Z)) : world :=
  {| env := e; trace := tr |}.

Definition boot (e : mem_env) : world := mk_world e [].

(** The world after [ingest_qdrant_cloud.ensure_collection] has run on an
    empty store: the collection has just been created. *)
Definition fresh_collection : world :=
  (IngestCloud.ensure_collection (boot empty_env)).2.

(** Ten one-sentence files [tokens/d01.txt] .. [tokens/d10.txt]. *)
Definition ten_files : list (str * str) :=
  (fun i => (lit "tokens/d" ++ (if i <? 10 then lit "0" else []) ++ str_of_int i ++ lit ".txt",
             lit "document number " ++ str_of_int i))
    <$> [1; 2; 3; 4; 5; 6; 7; 8; 9; 10].


(** Ten files, and an embeddings endpoint that fails on its fifth request. *)
Definition flaky_env : mem_env :=
  {| collections := []; files := ten_files; fault := None;
     embed_calls := 0; embed_fails := [5%nat]; uuids := 0 |}.

(** The points of the collection [name]. *)
Definition stored_in (name : str) (e : mem_env) : list (PointStruct Z) :=
  match lookup_name name (collections e) with
  | Some c => stored c
  | None => []
  end.

(** A store that refuses the API key. *)
Definition unauthorized_env : mem_env :=
  {| collections := []; files := [];
     fault := Some (UnexpectedResponse 401 (lit "Unauthorized"));
     embed_calls := 0; embed_fails := []; uuids := 0 |}.

End InMemory.


(** ** The stand-in, with the chat and transcription endpoints *)

Module InMemoryChat.

(** The model always answers the same, with blanks around. *)
Definition chat (model : str) (messages : list (str * str)) (e : InMemory.mem_env)
  : result (option str) * InMemory.mem_env :=
  match InMemory.fault e with
  | Some x => (Err x, e)
  | None => (Ok (Some (lit "  Данных недостаточно.  ")), e)
  end.

(** A file can be opened when the directory holds it. *)
Definition open_rb (path : str) (e : InMemory.mem_env) : result unit * InMemory.mem_env :=
  match InMemory.lookup_name path (InMemory.files e) with
  | Some _ => (Ok tt, e)
  | None => (Err (Exception (lit "[Errno 2] No such file or directory")), e)
  end.

(** The transcription of an audio file is the text stored under its path;
    the endpoint refuses a file that holds nothing. *)
Definition transcribe (model path : str) (e : InMemory.mem_env)
  : result str * InMemory.mem_env :=
  match InMemory.fault e, InMemory.lookup_name path (InMemory.files e) with
  | Some x, _ => (Err x, e)
  | None, Some (c :: text) => (Ok (c :: text), e)
  | None, _ => (Err (Exception (lit "Audio file is empty")), e)
  end.

#[export] Instance chat_services : @DemoChat.ChatServices InMemory.services :=
  @DemoChat.Build_ChatServices InMemory.services chat open_rb transcribe.

Definition mk_chat_world (e : InMemory.mem_env)
           (tr : list (@DemoChat.chat_event InMemory.services))
  : @DemoChat.chat_world InMemory.services :=
  @DemoChat.Build_chat_world InMemory.services e tr.

End InMemoryChat.

(** ** A stand-in for the web site and the disk

    The knowledge page lists seven anchors; an article page is its own
    text. Files are kept in the order in which they were written. *)

Module InMemoryWeb.

Record web_site := { pages : list (str * str); disk : list (str * str); naps : nat }.

Definition LISTING : str := lit "<html>article-knowledge</html>".

Definition listing_anchors : list (str * list str) :=
  [(lit "/club/article-knowledge", [lit "База знаний клуба"]);
   (lit "/club/nds-2026", [lit "НДС в 2026 году:"; lit "что изменится"]);
   (lit "/about", [lit "О компании «Моё дело»"]);
   (lit "/club/authors/ivanov", [lit "Иван Иванов, эксперт"]);
   (lit "/club/usn", [lit "УСН"]);
   (lit "/club/nds-2026", [lit "Читать далее про НДС"]);
   (lit "/club/usn-limits", [lit "Новые лимиты по УСН"])].

Definition get (url : str) (s : web_site) : result str * web_site :=
  match InMemory.lookup_name url (pages s) with
  | Some html => (Ok html, s)
  | None => (Err (Exception (lit "404 Client Error: Not Found for url: " ++ url)), s)
  end.

Definition anchors_of (html : str) : list (str * list str) :=
  if bool_decide (html = LISTING) then listing_anchors else [].

Definition join_url (base href : str) : str := lit "https://www.moedelo.org" ++ href.

Definition makedirs (path : str) (s : web_site) : result unit * web_site := (Ok tt, s).

Definition write_file (path text : str) (s : web_site) : result unit * web_site :=
  (Ok tt, {| pages := pages s; disk := disk s ++ [(path, text)]; naps := naps s |}).

Definition nap (s : web_site) : web_site :=
  {| pages := pages s; disk := disk s; naps := S (naps s) |}.

#[export] Instance web : Parser.Web :=
  {| Parser.Site := web_site;
     Parser.session_get := get;
     Parser.soup_anchors := anchors_of;
     Parser.urljoin := join_url;
     Parser.extract_article_text := fun html => html;
     Parser.os_makedirs := makedirs;
     Parser.os_write_file := write_file;
     Parser.time_sleep := nap |}.

(** The knowledge page and one of its two articles; the other is
    missing. *)
Definition one_article : web_site :=
  {| pages := [(Parser.BASE_URL, LISTING);
               (lit "https://www.moedelo.org/club/usn-limits",
                concat (replicate 12 (lit "Лимит доходов по УСН вырастет. ")))];
     disk := []; naps := 0 |}.

Definition mk_web_world (s : web_site) (evs : list Parser.web_event)
  : @Parser.web_world web :=
  @Parser.Build_web_world web s evs.

End InMemoryWeb.


(** ** What a run sends *)

Section Sends.
Context `{Services}.

(** From [w] to [w'] the trace only grew, by events satisfying [P]. *)
Definition sends_only (P : event float -> Prop) (w w' : world) : Prop :=
  exists evs, trace w' = trace w ++ evs /\ Forall P evs.

(** From every world, [m] sends only events satisfying [P], and a value
    it returns satisfies [Q]. *)
Definition spec {A} (m : M A) (P : event float -> Prop) (Q : A -> Prop) : Prop :=
  forall w, sends_only P w (m w).2 /\ (forall a, (m w).1 = Return a -> Q a).


Definition is_create (ev : event float) : Prop :=
  match ev with CreateCollection _ _ => True | _ => False end.

Definition is_upsert (ev : event float) : Prop :=
  match ev with Upsert _ _ => True | _ => False end.


(** The points of the [upsert] requests of a trace. *)
Definition upserts (tr : list (event float)) : list (Points float) :=
  omap (fun ev => match ev with Upsert _ ps => Some ps | _ => None end) tr.

(** The lines a trace printed. *)
Definition printed (tr : list (event float)) : list str :=
  omap (fun ev => match ev with Print line => Some line | _ => None end) tr.



Definition ids_of (ps : Points float) : list PointId :=
  match ps with
  | PointsBatch b => Effects.ids b
  | PointsList l => id <$> l
  end.








End Sends.

(** ** Predicates used to state properties of the chunker *)

(** Whether two spaces stand side by side somewhere in [t]. *)
Fixpoint adjacent_spaces (t : str) : bool :=
  match t with
  | a :: (b :: _) as r => ((a =? SPACE) && (b =? SPACE))%N || adjacent_spaces r
  | _ => false
  end.

(** A word as [split] yields them: not empty and free of whitespace. *)
Definition is_word (w : str) : Prop := w <> [] /\ Forall (fun c => isspace c = false) w.

(** ** More predicates on what a run sends *)

Section MoreSends.
Context `{Services}.

Definition is_print (ev : event float) : Prop :=
  match ev with Print _ => True | _ => False end.

(** At most one [upsert], with nothing before it that writes points and
    nothing after it but printing. *)
Definition upsert_last (evs : list (event float)) : Prop :=
  Forall (fun ev => ~ is_upsert ev) evs \/
  exists pre name ps post,
    evs = pre ++ Upsert name ps :: post /\
    Forall (fun ev => ~ is_upsert ev) pre /\ Forall is_print post.

(** From every world, what [m] sends satisfies [upsert_last]. *)
Definition sends_upsert_last {A} (m : M A) : Prop :=
  forall w, exists evs, trace (m w).2 = trace w ++ evs /\ upsert_last evs.

(** The embedding model and the shape of the collection that the scripts
    have in common. *)
Definition schema_ok (ev : event float) : Prop :=
  match ev with
  | EmbeddingsCreate model _ => model = lit "text-embedding-3-small"
  | CreateCollection _ p | RecreateCollection _ p =>
      p = {| size := 1536; distance := COSINE |}
  | _ => True
  end.

End MoreSends.

(** The world in which [ingest_files], started on the empty store, finds
    itself after [ensure_collection]. *)
Definition after_ensure : world :=
  (IngestCloud.ensure_collection
     (InMemory.mk_world InMemory.empty_env
        (([] ++ [Print (lit "Загрузка данных в '" ++ IngestCloud.COLLECTION_NAME
                          ++ lit "'...")])
           ++ [Print (lit "Папка: " ++ IngestCloud.INPUT_DIR)]))).2.

(** The world after [ingest_files] has loaded the ten files into an empty
    store. *)
Definition ten_files_loaded : world :=
  (IngestCloud.ingest_files 3
     (InMemory.boot {| InMemory.collections := []; InMemory.files := InMemory.ten_files;
                       InMemory.fault := None; InMemory.embed_calls := 0;
                       InMemory.embed_fails := []; InMemory.uuids := 0 |})).2.

(** What the store of [ten_files_loaded] answers to a search for two points. *)
Definition two_found : list (ScoredPoint Z) :=
  match (InMemory.query_points DemoApp.COLLECTION_NAME [17] 2 true
           (env ten_files_loaded)).1 with
  | Ok points => points
  | Err _ => []
  end.

(** A directory whose one file holds nothing but whitespace. *)
Definition blank_file_env : InMemory.mem_env :=
  {| InMemory.collections := [];
     InMemory.files := [(lit "tokens/blank.txt", [SPACE; NEWLINE; 9%N; SPACE])];
     InMemory.fault := None;
     InMemory.embed_calls := 0; InMemory.embed_fails := []; InMemory.uuids := 0 |}.

(** A store whose collection holds a [dict] of named vectors that is empty. *)
Definition no_named_vectors_env : InMemory.mem_env :=
  {| InMemory.collections :=
       [(IngestCloud.COLLECTION_NAME,
         {| InMemory.config := NamedVectors []; InMemory.stored := [] |})];
     InMemory.files := []; InMemory.fault := None;
     InMemory.embed_calls := 0; InMemory.embed_fails := []; InMemory.uuids := 0 |}.


(** ** Predicates on what [handle_query] sends *)

Section ChatSends.
Context `{DemoChat.ChatServices}.

Definition is_transcription (ev : DemoChat.chat_event) : Prop :=
  match ev with DemoChat.Transcription _ _ => True | _ => False end.

End ChatSends.

(** The world of [handle_query] over the freshly created collection. *)
Definition chat_fresh : DemoChat.chat_world :=
  InMemoryChat.mk_chat_world (env InMemory.fresh_collection) [].

(** The same over a store that refuses the API key. *)
Definition chat_unauthorized : DemoChat.chat_world :=
  InMemoryChat.mk_chat_world InMemory.unauthorized_env [].

(** A directory that holds one audio file, with nothing in it. *)
Definition silent_audio_env : InMemory.mem_env :=
  {| InMemory.collections := []; InMemory.files := [(lit "silence.wav", [])];
     InMemory.fault := None;
     InMemory.embed_calls := 0; InMemory.embed_fails := []; InMemory.uuids := 0 |}.

Definition chat_silent : DemoChat.chat_world :=
  InMemoryChat.mk_chat_world silent_audio_env [].

(** ** Predicates on the anchors of the knowledge page *)

Section Anchors.
Context `{Parser.Web}.

(** An anchor that [collect_article_links] takes for an article. *)
Definition is_article_anchor (a : str * list str) : Prop :=
  Parser.startswith a.1 (lit "/club/") = true /\
  Parser.service_page a.1 = false /\
  10 <= len (join [SPACE] a.2).

(** The link made of it. *)
Definition link_of (a : str * list str) : str * str :=
  (Parser.urljoin Parser.BASE_URL a.1, join [SPACE] a.2).

End Anchors.

(** The parser started on the stand-in site. *)
Definition web_start : Parser.web_world :=
  InMemoryWeb.mk_web_world InMemoryWeb.one_article [].

(** * Properties *)

(** ** Slices and [rfind] *)

Lemma len_nonneg (s : str) : 0 <= len s.
Proof. unfold len. lia. Qed.

Lemma len_app (s t : str) : len (s ++ t) = len s + len t.
Proof. unfold len. rewrite length_app. lia. Qed.

Lemma len_nil_iff (s : str) : len s = 0 <-> s = [].
Proof.
  unfold len. split.
  - intros H. apply length_zero_iff_nil. lia.
  - intros ->. reflexivity.
Qed.

Lemma slice_take_drop (s : str) (lo hi : Z) :
  0 <= lo -> lo <= hi ->
  slice s lo hi = take (Z.to_nat (hi - lo)) (drop (Z.to_nat lo) s).
Proof.
  intros Hlo Hhi. unfold slice, clamp.
  destruct (Z.ltb_spec lo 0); [lia|]. destruct (Z.ltb_spec hi 0); [lia|].
  pose proof (len_nonneg s) as Hn. unfold len in *.
  destruct (Z.le_gt_cases lo (Z.of_nat (length s))) as [Hle|Hgt].
  - rewrite (Z.min_l lo) by lia.
    destruct (Z.le_gt_cases hi (Z.of_nat (length s))).
    + rewrite Z.min_l by lia. reflexivity.
    + rewrite Z.min_r by lia.
      rewrite !take_ge; [reflexivity| |]; rewrite length_drop; lia.
  - rewrite !drop_ge by lia. by rewrite !take_nil.
Qed.

Lemma len_slice (s : str) (lo hi : Z) :
  0 <= lo -> lo <= hi ->
  len (slice s lo hi) = Z.max 0 (Z.min hi (len s) - lo).
Proof.
  intros Hlo Hhi. rewrite slice_take_drop by lia.
  unfold len. rewrite length_take, length_drop. lia.
Qed.

Lemma rfind_from_range (s : str) (c : codepoint) (i found : Z) :
  rfind_from s c i found = found \/
  (i <= rfind_from s c i found < i + len s).
Proof.
  revert i found. induction s as [|x r IH]; intros i found; simpl.
  - by left.
  - unfold len. simpl length.
    destruct (IH (i + 1) (if (x =? c)%N then i else found)) as [->|Hr].
    + destruct (x =? c)%N; [right; lia | by left].
    + right. unfold len in Hr. lia.
Qed.

Lemma rfind_range (s : str) (c : codepoint) :
  rfind s c = -1 \/ 0 <= rfind s c < len s.
Proof. apply rfind_from_range. Qed.

Lemma rfind_from_lower (s : str) (c : codepoint) (i found : Z) (j : nat) :
  s !! j = Some c -> i + Z.of_nat j <= rfind_from s c i found.
Proof.
  revert i found j. induction s as [|x r IH]; intros i found j Hj; [done|].
  destruct j as [|j]; simpl in *.
  - injection Hj as ->. rewrite N.eqb_refl.
    destruct (rfind_from_range r c (i + 1) i) as [->|]; lia.
  - specialize (IH (i + 1) (if (x =? c)%N then i else found) j Hj). lia.
Qed.

(** ** The loop of [split_text] *)

Section ChunkerFacts.
Variables (size overlap : Z).
Hypothesis size_pos : 0 < size.
Hypothesis overlap_nonneg : 0 <= overlap.

Lemma window_spec (text : str) (s : Z) (c : str) (e : Z) :
  0 <= s < len text ->
  window size text s = (c, e) ->
  c = slice text s (s + len c) /\ len c = Z.min e (len text) - s /\
  s <= e <= s + size /\ (e < len text \/ e = s + size).
Proof using size_pos.
  intros Hs. unfold window.
  assert (Hfull : s + size < len text -> len (slice text s (s + size)) = size).
  { intros. rewrite len_slice by lia. lia. }
  destruct (Z.ltb_spec (s + size) (len text)) as [Hlt|Hge].
  - destruct (rfind_range (slice text s (s + size)) SPACE) as [Hr|Hr].
    + rewrite Hr. simpl. intros [= <- <-]. rewrite Hfull by done.
      repeat split; lia.
    + rewrite Hfull in Hr by done.
      destruct (Z.eqb_spec (rfind (slice text s (s + size)) SPACE) (-1)); [lia|].
      simpl. set (ls := rfind _ _) in *. intros [= <- <-].
      assert (Heq : slice (slice text s (s + size)) 0 ls = slice text s (s + ls)).
      { rewrite (slice_take_drop _ 0 ls), (slice_take_drop text s (s + size)),
          (slice_take_drop text s (s + ls)) by lia.
        rewrite drop_0, take_take. f_equal; lia. }
      rewrite Heq. rewrite len_slice by lia.
      repeat split; try lia. f_equal; lia.
  - intros [= <- <-]. rewrite len_slice by lia.
    repeat split; try lia.
    rewrite !slice_take_drop by lia.
    rewrite !take_ge; [done| |]; rewrite length_drop; unfold len in *; lia.
Qed.

Lemma loop_body_start (text : str) (st : loop_state) :
  start (loop_body size overlap text st) = snd (window size text (start st)).
Proof using overlap_nonneg.
  unfold loop_body. destruct (window size text (start st)) as [c e]. simpl. lia.
Qed.

Lemma loop_body_chunks (text : str) (st : loop_state) :
  chunks (loop_body size overlap text st)
  = chunks st ++ [fst (window size text (start st))].
Proof.
  unfold loop_body. by destruct (window size text (start st)) as [c e].
Qed.

(** A window that ends where it started leaves the cursor in place: the
    loop runs through any amount of fuel. *)
Lemma stuck_diverges (text : str) (s : Z) :
  s < len text -> snd (window size text s) = s ->
  forall fuel chs, while_loop size overlap fuel text {| start := s; chunks := chs |} = None.
Proof using overlap_nonneg.
  intros Hs Hw. induction fuel as [|fuel IH]; intros chs; [done|].
  simpl. destruct (Z.ltb_spec s (len text)); [|lia].
  pose proof (loop_body_start text {| start := s; chunks := chs |}) as Hb.
  simpl in Hb. rewrite Hw in Hb.
  destruct (loop_body size overlap text _) as [s' chs'] eqn:E.
  simpl in Hb. subst s'. apply IH.
Qed.

Lemma while_loop_spans (text : str) (fuel : nat) :
  forall st st',
    0 <= start st ->
    while_loop size overlap fuel text st = Some st' ->
    let sp := spans size overlap fuel text st in
    chunks st' = chunks st ++ sp.*2 /\
    concat sp.*2 = drop (Z.to_nat (start st)) text /\
    Forall (fun oc => oc.2 = slice text oc.1 (oc.1 + len oc.2) /\
                      0 < len oc.2 <= size /\ oc.1 + len oc.2 <= len text) sp /\
    contiguous (start st) sp /\
    (start st < len text ->
     exists oc, last sp = Some oc /\ oc.1 + len oc.2 = len text).
Proof using size_pos overlap_nonneg.
  induction fuel as [|fuel IH]; intros st st' Hst Hrun; [done|].
  simpl in Hrun |- *.
  destruct (Z.ltb_spec (start st) (len text)) as [Hlt|Hge].
  - destruct (window size text (start st)) as [c e] eqn:Hw.
    destruct (window_spec text (start st) c e ltac:(lia) Hw)
      as (Hc & Hlen & Hrange & Hend).
    pose proof (loop_body_start text st) as Hb1.
    pose proof (loop_body_chunks text st) as Hb2.
    rewrite Hw in Hb1, Hb2. simpl in Hb1, Hb2.
    assert (Hadv : start st < e).
    { destruct (Z.eq_dec e (start st)) as [->|]; [|lia].
      destruct (loop_body size overlap text st) as [s1 chs1] eqn:E.
      simpl in Hb1. subst s1.
      rewrite stuck_diverges in Hrun; [done|lia|by rewrite Hw]. }
    assert (H0 : 0 <= start (loop_body size overlap text st)) by (rewrite Hb1; lia).
    destruct (IH _ _ H0 Hrun) as (Hch & Hcat & Hall & Hcont & Hlast). clear H0.
    rewrite Hb1 in *. rewrite Hb2 in Hch. simpl.
    split; [by rewrite Hch, <- app_assoc|].
    split.
    { transitivity (c ++ drop (Z.to_nat e) text); [f_equal; exact Hcat|].
      assert (Hd : drop (Z.to_nat e) text = drop (Z.to_nat (start st + len c)) text).
      { destruct (Z.le_gt_cases e (len text)); [f_equal; lia|].
        rewrite !drop_ge; [done| |]; unfold len in *; lia. }
      rewrite Hd, Hc at 1. rewrite slice_take_drop by lia.
      replace (Z.to_nat (start st + len c))
        with (Z.to_nat (start st) + Z.to_nat (start st + len c - start st))%nat by lia.
      by rewrite <- drop_drop, take_drop. }
    split; [constructor; [simpl; split; [done|lia]|done]|].
    destruct (Z.lt_ge_cases e (len text)) as [He|He].
    + split; [split; [done|]; by replace (start st + len c) with e by lia|].
      intros _. destruct (Hlast He) as (oc & Hl & Hoc). exists oc. split; [|done].
      destruct (spans size overlap fuel text _); [done|]. done.
    + assert (Hnil : spans size overlap fuel text (loop_body size overlap text st) = []).
      { destruct fuel; [done|]. simpl. rewrite Hb1.
        destruct (Z.ltb_spec e (len text)); [lia|done]. }
      rewrite Hnil. simpl. split; [done|]. intros _. exists (start st, c). simpl.
      split; [done|lia].
  - injection Hrun as <-. simpl. rewrite app_nil_r.
    split; [done|]. split; [|split; [constructor|split; [done|lia]]].
    rewrite drop_ge; [done|]. unfold len in *. lia.
Qed.

Lemma contiguous_sorted (sp : list (Z * str)) :
  forall o, contiguous o sp ->
  Forall (fun oc => 0 < len oc.2) sp ->
  StronglySorted Z.lt sp.*1 /\ Forall (fun o' => o <= o') sp.*1.
Proof.
  induction sp as [|[o' c] r IH]; intros o Hc Hpos; simpl.
  - split; constructor.
  - destruct Hc as [-> Hc]. inversion Hpos as [|? ? Hp Hr]; subst. simpl in Hp.
    destruct (IH _ Hc Hr) as [Hs Hlow]. split.
    + constructor; [done|]. eapply Forall_impl; [exact Hlow|]. simpl. intros; lia.
    + constructor; [lia|]. eapply Forall_impl; [exact Hlow|]. simpl. intros; lia.
Qed.

End ChunkerFacts.

(** ** Words and progress of the cursor *)

Lemma lead_nonneg (s : str) : 0 <= lead s.
Proof. induction s as [|c r IH]; simpl; [lia|]. destruct (c =? SPACE)%N; lia. Qed.

Lemma lead_space (s : str) :
  lead s < len s -> s !! Z.to_nat (lead s) = Some SPACE.
Proof.
  induction s as [|c r IH]; unfold len; simpl; [lia|].
  destruct (N.eqb_spec c SPACE) as [->|Hne]; [done|].
  intros H. pose proof (lead_nonneg r).
  replace (Z.to_nat (1 + lead r)) with (S (Z.to_nat (lead r))) by lia.
  simpl. apply IH. unfold len. lia.
Qed.

Lemma longest_run_lower (s : str) :
  forall cur best, Z.max (cur + lead s) best <= longest_run s cur best.
Proof.
  induction s as [|c r IH]; intros cur best; simpl; [lia|].
  destruct (c =? SPACE)%N.
  - specialize (IH 0 (Z.max cur best)). pose proof (lead_nonneg r). lia.
  - specialize (IH (cur + 1) best). lia.
Qed.

Lemma longest_run_suffix (s : str) :
  forall (i : nat) cur best, 0 <= cur -> lead (drop i s) <= longest_run s cur best.
Proof.
  induction s as [|c r IH]; intros i cur best Hcur.
  - rewrite drop_nil. simpl. lia.
  - destruct i as [|i].
    + rewrite drop_0. pose proof (longest_run_lower (c :: r) cur best). lia.
    + simpl. destruct (c =? SPACE)%N; apply IH; lia.
Qed.

(** When every word is shorter than [k], any [k] consecutive characters
    hold a space. *)
Lemma space_in_window (text : str) (k i : Z) :
  longest_word text < k -> 0 <= i -> i + k <= len text ->
  exists j, 0 <= j < k /\ text !! Z.to_nat (i + j) = Some SPACE.
Proof.
  intros Hw Hi Hk.
  pose proof (longest_run_suffix text (Z.to_nat i) 0 0 ltac:(lia)) as Hs.
  fold (longest_word text) in Hs.
  pose proof (lead_nonneg (drop (Z.to_nat i) text)) as H0.
  exists (lead (drop (Z.to_nat i) text)). split; [lia|].
  replace (Z.to_nat (i + lead (drop (Z.to_nat i) text)))
    with (Z.to_nat i + Z.to_nat (lead (drop (Z.to_nat i) text)))%nat by lia.
  rewrite <- lookup_drop. apply lead_space.
  unfold len in *. rewrite length_drop. lia.
Qed.

Section Progress.
Variables (size overlap : Z).
Hypothesis size_pos : 0 < size.
Hypothesis overlap_nonneg : 0 <= overlap.

(** With words shorter than [size - 1] the trimmed window is never empty. *)
Lemma window_advances (text : str) (s : Z) :
  longest_word text < size - 1 ->
  0 <= s < len text ->
  s < snd (window size text s).
Proof using size_pos.
  intros Hw Hs. unfold window.
  destruct (Z.ltb_spec (s + size) (len text)) as [Hlt|Hge]; [|simpl; lia].
  destruct (space_in_window text (size - 1) (s + 1) Hw ltac:(lia) ltac:(lia))
    as (j & Hj & Hsp).
  assert (Hin : slice text s (s + size) !! Z.to_nat (1 + j) = Some SPACE).
  { rewrite slice_take_drop by lia. rewrite lookup_take_lt by lia.
    rewrite lookup_drop. rewrite <- Hsp. f_equal. lia. }
  pose proof (rfind_from_lower _ SPACE 0 (-1) _ Hin) as Hr.
  fold (rfind (slice text s (s + size)) SPACE) in Hr.
  destruct (Z.eqb_spec (rfind (slice text s (s + size)) SPACE) (-1)); [lia|].
  simpl. lia.
Qed.

(** A loop whose cursor gains at least one character at each iteration
    stops within [len text - start + 1] tests of its condition. *)
Lemma while_loop_terminates (text : str) :
  (forall s, 0 <= s < len text -> s < snd (window size text s)) ->
  forall (fuel : nat) st,
    0 <= start st -> Z.max 0 (len text - start st) < Z.of_nat fuel ->
    exists st', while_loop size overlap fuel text st = Some st'.
Proof using overlap_nonneg.
  intros Hadv. induction fuel as [|fuel IH]; intros st Hst Hfuel; [lia|].
  - simpl. destruct (Z.ltb_spec (start st) (len text)) as [Hlt|Hge]; [|eauto].
    pose proof (loop_body_start size overlap overlap_nonneg text st) as Hb.
    specialize (Hadv (start st) ltac:(lia)).
    apply IH; lia.
Qed.

End Progress.


(** ** Rules for what a run sends *)

Section SendsFacts.
Context `{Services}.
Implicit Types (P : event float -> Prop) (w : world).

Lemma sends_only_refl P w : sends_only P w w.
Proof. exists []. by rewrite app_nil_r. Qed.

Lemma sends_only_trans P w1 w2 w3 :
  sends_only P w1 w2 -> sends_only P w2 w3 -> sends_only P w1 w3.
Proof.
  intros (e1 & H1 & F1) (e2 & H2 & F2). exists (e1 ++ e2).
  rewrite H2, H1, app_assoc. split; [done|]. by apply Forall_app.
Qed.

Lemma sends_only_one P w ev (e : Env) :
  P ev -> sends_only P w {| env := e; trace := trace w ++ [ev] |}.
Proof. intros Hp. exists [ev]. split; [done|]. by constructor. Qed.


Lemma spec_ret {A} (a : A) P (Q : A -> Prop) : Q a -> spec (ret a) P Q.
Proof.
  intros Hq w. split; [apply sends_only_refl|]. simpl. by intros ? [= <-].
Qed.

Lemma spec_raise {A} (e : exn) P (Q : A -> Prop) : spec (raise e) P Q.
Proof. intros w. split; [apply sends_only_refl|]. simpl. by intros ? [=]. Qed.

Lemma spec_diverge {A} P (Q : A -> Prop) : spec diverge P Q.
Proof. intros w. split; [apply sends_only_refl|]. simpl. by intros ? [=]. Qed.

Lemma spec_emit ev P : P ev -> spec (emit ev) P (fun _ => True).
Proof. intros Hp w. split; [by apply sends_only_one|done]. Qed.

Lemma spec_print line P : P (Print line) -> spec (print line) P (fun _ => True).
Proof. apply spec_emit. Qed.

Lemma spec_request {A} ev (answer : Env -> result A * Env) P :
  P ev -> spec (request ev answer) P (fun _ => True).
Proof.
  intros Hp w. unfold request. destruct (answer (env w)) as [r e'].
  split; [by apply sends_only_one|done].
Qed.

Lemma spec_ask {A} ev (answer : Env -> A * Env) P :
  P ev -> spec (ask ev answer) P (fun _ => True).
Proof.
  intros Hp w. unfold ask. destruct (answer (env w)) as [r e'].
  split; [by apply sends_only_one|done].
Qed.

Lemma spec_bind {A B} (m : M A) (k : A -> M B) P (Q1 : A -> Prop) (Q2 : B -> Prop) :
  spec m P Q1 -> (forall a, Q1 a -> spec (k a) P Q2) -> spec (bind m k) P Q2.
Proof.
  intros Hm Hk w. unfold bind. destruct (Hm w) as [Hs Hq].
  destruct (m w) as [[a|e|] w1]; simpl in *.
  - destruct (Hk a (Hq a eq_refl) w1) as [Hs' Hq'].
    split; [by eapply sends_only_trans|done].
  - split; [done|]. by intros ? [=].
  - split; [done|]. by intros ? [=].
Qed.

Lemma spec_try_except {A} (body : M A) (handler : exn -> M A) P (Q : A -> Prop) :
  spec body P Q -> (forall e, spec (handler e) P Q) -> spec (try_except body handler) P Q.
Proof.
  intros Hb Hh w. unfold try_except. destruct (Hb w) as [Hs Hq].
  destruct (body w) as [[a|e|] w1]; simpl in *.
  - by split.
  - destruct (Hh e w1) as [Hs' Hq']. split; [by eapply sends_only_trans|done].
  - split; [done|]. by intros ? [=].
Qed.



(** A loop keeps an invariant [I] of its variables, indexed by the
    number of items done. *)
Lemma spec_for_each {A S} (body : A -> S -> M S) P (l : list A) :
  forall (I : nat -> S -> Prop) (s : S),
    (forall i x s, l !! i = Some x -> I i s -> spec (body x s) P (I (Datatypes.S i))) ->
    I O s ->
    spec (for_each l body s) P (I (length l)).
Proof.
  induction l as [|x r IH]; intros I s Hbody Hinit; simpl.
  - by apply spec_ret.
  - eapply spec_bind; [by apply (Hbody O x s)|].
    intros s' Hs'. apply (IH (fun i => I (Datatypes.S i))); [|done].
    intros i y t Hy Ht. by apply (Hbody (Datatypes.S i)).
Qed.

End SendsFacts.

(** ** The chunker against the specification *)

Lemma while_loop_S (size overlap : Z) (fuel : nat) (text : str) (st : loop_state) :
  while_loop size overlap (S fuel) text st
  = if start st <? len text
    then while_loop size overlap fuel text (loop_body size overlap text st)
    else Some st.
Proof. reflexivity. Qed.

Lemma split_text_with_nonempty (size overlap : Z) (fuel : nat) (text : str) :
  normalize text <> [] ->
  split_text_with size overlap fuel text
  = chunks <$> while_loop size overlap fuel (normalize text) loop_init.
Proof. unfold split_text_with. by destruct (normalize text). Qed.

Lemma split_text_with_empty (size overlap : Z) (fuel : nat) (text : str) :
  normalize text = [] -> split_text_with size overlap fuel text = Some [].
Proof. unfold split_text_with. by intros ->. Qed.

(** Everything the loop invariant gives about a run that returned. *)
Lemma split_text_with_spans (size overlap : Z) (fuel : nat) (text : str) (cs : list str) :
  0 < size -> 0 <= overlap ->
  split_text_with size overlap fuel text = Some cs ->
  let sp := spans size overlap fuel (normalize text) loop_init in
  sp.*2 = cs /\
  concat cs = normalize text /\
  Forall (fun oc => oc.2 = slice (normalize text) oc.1 (oc.1 + len oc.2) /\
                    0 < len oc.2 <= size /\
                    oc.1 + len oc.2 <= len (normalize text)) sp /\
  contiguous 0 sp /\
  match last sp with
  | Some oc => oc.1 + len oc.2 = len (normalize text)
  | None => normalize text = []
  end.
Proof.
  intros Hsize Hov Hrun.
  destruct (decide (normalize text = [])) as [Hnil|Hne].
  - rewrite split_text_with_empty in Hrun by done. injection Hrun as <-.
    rewrite Hnil. destruct fuel; simpl; repeat split; constructor.
  - rewrite split_text_with_nonempty in Hrun by done.
    destruct (while_loop size overlap fuel (normalize text) loop_init) as [st'|] eqn:Hw;
      [|done].
    injection Hrun as <-.
    destruct (while_loop_spans size overlap Hsize Hov (normalize text) fuel
                loop_init st' ltac:(simpl; lia) Hw)
      as (Hch & Hcat & Hall & Hcont & Hlast).
    simpl in Hch, Hcat, Hcont, Hlast. rewrite drop_0 in Hcat.
    simpl. rewrite Hch. repeat split; try done.
    destruct Hlast as (oc & -> & Hoc); [|done].
    assert (len (normalize text) <> 0) by (by rewrite len_nil_iff).
    pose proof (len_nonneg (normalize text)). lia.
Qed.

Lemma loop_body_overlap (size overlap : Z) (text : str) (st : loop_state) :
  0 <= overlap -> loop_body size overlap text st = loop_body size 0 text st.
Proof.
  intros Hov. unfold loop_body. destruct (window size text (start st)) as [c e].
  f_equal. lia.
Qed.

Lemma while_loop_overlap (size overlap : Z) (text : str) (fuel : nat) :
  0 <= overlap ->
  forall st, while_loop size overlap fuel text st = while_loop size 0 fuel text st.
Proof.
  intros Hov. induction fuel as [|fuel IH]; intros st; [done|].
  rewrite !while_loop_S, loop_body_overlap by done.
  destruct (start st <? len text); [apply IH|done].
Qed.

(** C1, at the input on which [split_text] departs from it: two blocks of
    500 characters joined by a space. The second chunk starts at offset
    500, where the first one ends, and not [CHUNK_OVERLAP] characters
    before; the last 100 characters of the first chunk are not the first
    100 of the second. On every input the result is the one that an
    overlap of 0 gives. *)
Theorem split_text_chunks_do_not_overlap :
  split_text 3 two_blocks_text
  = Some [replicate 500 120%N; SPACE :: replicate 500 121%N] /\
  (spans CHUNK_SIZE CHUNK_OVERLAP 3 (normalize two_blocks_text) loop_init).*1 = [0; 500] /\
  drop 400 (replicate 500 120%N) <> take CHUNK_OVERLAP_nat (SPACE :: replicate 500 121%N) /\
  (forall fuel text, split_text fuel text = split_text_with CHUNK_SIZE 0 fuel text).
Proof.
  split; [by vm_compute|]. split; [by vm_compute|]. split.
  - vm_compute. intros [=].
  - intros fuel text. unfold split_text, split_text_with.
    destruct (normalize text); [done|].
    by rewrite while_loop_overlap by (by vm_compute).
Qed.

(** Runs that return: for [size > overlap >= 0] and a run of [split_text]
    that returned, every chunk has at most [size] characters, the chunk at
    each cursor position is the text found there, the cursor positions are
    strictly increasing, and the last chunk ends where the normalized text
    ends. Not every run returns. *)
Theorem split_text_with_bounds (size overlap : Z) (fuel : nat) (text : str) (cs : list str) :
  0 <= overlap -> overlap < size ->
  split_text_with size overlap fuel text = Some cs ->
  let sp := spans size overlap fuel (normalize text) loop_init in
  sp.*2 = cs /\
  Forall (fun c => len c <= size) cs /\
  Forall (fun oc => oc.2 = slice (normalize text) oc.1 (oc.1 + len oc.2)) sp /\
  StronglySorted Z.lt sp.*1 /\
  match last sp with
  | Some oc => oc.1 + len oc.2 = len (normalize text)
  | None => normalize text = []
  end.
Proof.
  intros Hov Hsize Hrun.
  destruct (split_text_with_spans size overlap fuel text cs ltac:(lia) Hov Hrun)
    as (Hsp & _ & Hall & Hcont & Hlast).
  simpl. split; [done|]. split.
  { rewrite <- Hsp. apply Forall_fmap. eapply Forall_impl; [exact Hall|].
    simpl. intros oc (_ & ? & _). lia. }
  split; [eapply Forall_impl; [exact Hall|]; by intros oc (? & _)|].
  split; [|done].
  eapply contiguous_sorted; [exact Hcont|].
  eapply Forall_impl; [exact Hall|]. intros oc (_ & ? & _). lia.
Qed.

Lemma split_text_with_bounds_witness :
  let sp := spans 5 2 9 (normalize (lit "  ab cd   ef gh ")) loop_init in
  split_text_with 5 2 9 (lit "  ab cd   ef gh ")
  = Some [lit "ab"; lit " cd"; lit " ef"; lit " gh"] /\
  sp.*1 = [0; 2; 5; 8] /\
  StronglySorted Z.lt sp.*1.
Proof.
  assert (Hrun : split_text_with 5 2 9 (lit "  ab cd   ef gh ")
                 = Some [lit "ab"; lit " cd"; lit " ef"; lit " gh"])
    by (vm_compute; reflexivity).
  pose proof (split_text_with_bounds 5 2 9 (lit "  ab cd   ef gh ") _
                ltac:(lia) ltac:(lia) Hrun) as Hb.
  cbv zeta in Hb. destruct Hb as (_ & _ & _ & Hs & _).
  split; [exact Hrun|]. split; [vm_compute; reflexivity|exact Hs].
Defined.

(** The text [a] followed by a word of 900 letters, under the constants of
    the module: after the chunk [a] the window opens on the space, [rfind]
    answers 0, the chunk is empty and [end] is [start]. *)
Lemma long_word_normalized : normalize long_word_text = long_word_text.
Proof. vm_compute. reflexivity. Qed.

Lemma long_word_window : window CHUNK_SIZE long_word_text 1 = ([], 1).
Proof. vm_compute. reflexivity. Qed.

Lemma long_word_first_turn :
  loop_body CHUNK_SIZE CHUNK_OVERLAP long_word_text loop_init
  = {| start := 1; chunks := [lit "a"] |}.
Proof. vm_compute. reflexivity. Qed.

Lemma long_word_never_returns (fuel : nat) : split_text fuel long_word_text = None.
Proof.
  unfold split_text.
  rewrite split_text_with_nonempty
    by (rewrite long_word_normalized; vm_compute; discriminate).
  rewrite long_word_normalized. destruct fuel as [|fuel]; [done|].
  rewrite while_loop_S.
  replace (start loop_init <? len long_word_text) with true by (vm_compute; reflexivity).
  rewrite long_word_first_turn.
  rewrite (stuck_diverges CHUNK_SIZE CHUNK_OVERLAP ltac:(by vm_compute) long_word_text 1);
    [done| by vm_compute | by rewrite long_word_window].
Qed.

Lemma long_word_stalled_spans (n : nat) :
  forall cs, spans CHUNK_SIZE CHUNK_OVERLAP n long_word_text {| start := 1; chunks := cs |}
             = replicate n (1, []).
Proof.
  induction n as [|n IH]; intros cs; [done|].
  cbn [spans start].
  replace (1 <? len long_word_text) with true by (vm_compute; reflexivity).
  rewrite long_word_window. cbn [fst replicate]. f_equal.
  unfold loop_body. cbn [start chunks]. rewrite long_word_window.
  change (Z.max (1 - CHUNK_OVERLAP) 1) with 1. apply IH.
Qed.

(** C2, at the input on which [split_text] departs from it: [a], a space
    and a word of 900 letters, under [CHUNK_SIZE = 800] and
    [CHUNK_OVERLAP = 100]. The first chunk [a] starts at offset 0; every
    later turn of the loop starts at offset 1 and appends the empty chunk,
    so the start offsets 0, 1, 1, ... are not strictly increasing; and no
    list is ever returned, so no last chunk ends where the text ends. *)
Theorem split_text_offsets_stall_on_long_word :
  (forall n, spans CHUNK_SIZE CHUNK_OVERLAP (S n) (normalize long_word_text) loop_init
             = (0, lit "a") :: replicate n (1, [])) /\
  ~ StronglySorted Z.lt
      (spans CHUNK_SIZE CHUNK_OVERLAP 3 (normalize long_word_text) loop_init).*1 /\
  (forall fuel cs, split_text fuel long_word_text <> Some cs).
Proof.
  assert (Hspans : forall n,
             spans CHUNK_SIZE CHUNK_OVERLAP (S n) (normalize long_word_text) loop_init
             = (0, lit "a") :: replicate n (1, [])).
  { intros n. rewrite long_word_normalized. cbn [spans].
    replace (start loop_init <? len long_word_text) with true by (vm_compute; reflexivity).
    rewrite long_word_first_turn, long_word_stalled_spans.
    f_equal; vm_compute; reflexivity. }
  split; [exact Hspans|]. split.
  - rewrite (Hspans 2%nat). cbn [replicate fmap list_fmap fst].
    intros Hsorted. inversion Hsorted as [|? ? Htail _]; subst.
    inversion Htail as [|? ? _ Hlt]; subst.
    inversion Hlt as [|? ? Hone _]; subst. lia.
  - intros fuel cs. by rewrite long_word_never_returns.
Qed.

(** C3, at the same input: the loop of [split_text] never ends. The turn
    that starts at offset 1 leaves the cursor at offset 1, whatever the
    chunks gathered so far, and for no amount of fuel does [split_text]
    return. The constants of the module are in order ([overlap < size]),
    and nothing is raised. *)
Theorem split_text_diverges_on_long_word :
  CHUNK_OVERLAP < CHUNK_SIZE /\
  (forall fuel, split_text fuel long_word_text = None) /\
  window CHUNK_SIZE long_word_text 1 = ([], 1) /\
  (forall cs, start (loop_body CHUNK_SIZE CHUNK_OVERLAP (normalize long_word_text)
                               {| start := 1; chunks := cs |}) = 1).
Proof.
  split; [by vm_compute|]. split; [exact long_word_never_returns|].
  split; [exact long_word_window|].
  intros cs. rewrite long_word_normalized. unfold loop_body. cbn [start chunks].
  by rewrite long_word_window.
Qed.

(** Where the loop does end. For any [size > 0] and [overlap >= 0] the
    cursor never moves backward; and when every word of the normalized text
    is shorter than [size - 1], each iteration moves the cursor forward by
    at least one character and [split_text] returns within [len text + 1]
    tests of the loop condition. *)
Theorem split_text_terminates (size overlap : Z) (text : str) :
  0 < size -> 0 <= overlap ->
  (forall st, 0 <= start st < len (normalize text) ->
              start st <= start (loop_body size overlap (normalize text) st)) /\
  (longest_word (normalize text) < size - 1 ->
   (forall st, 0 <= start st < len (normalize text) ->
               start st + 1 <= start (loop_body size overlap (normalize text) st)) /\
   (exists cs, split_text_with size overlap (S (length (normalize text))) text = Some cs)).
Proof.
  intros Hsize Hov. split; [|intros Hwords; split].
  - intros st Hst. rewrite loop_body_start by done.
    destruct (window size (normalize text) (start st)) as [c e] eqn:Hw.
    destruct (window_spec size Hsize _ _ _ _ Hst Hw) as (_ & _ & ? & _). simpl. lia.
  - intros st Hst. rewrite loop_body_start by done.
    pose proof (window_advances size Hsize (normalize text) (start st) Hwords Hst). lia.
  - destruct (decide (normalize text = [])) as [Hnil|Hne].
    + exists []. by apply split_text_with_empty.
    + rewrite split_text_with_nonempty by done.
      destruct (while_loop_terminates size overlap Hov (normalize text)
                  (fun s Hs => window_advances size Hsize (normalize text) s Hwords Hs)
                  (S (length (normalize text))) loop_init)
        as [st' Hst']; [simpl; lia | simpl; unfold len; lia |].
      exists (chunks st'). by rewrite Hst'.
Qed.

Lemma split_text_terminates_witness :
  longest_word (normalize (lit "ab cd ef gh")) < 5 - 1 /\
  (exists cs, split_text_with 5 7 (S (length (normalize (lit "ab cd ef gh"))))
                              (lit "ab cd ef gh") = Some cs).
Proof.
  assert (Hw : longest_word (normalize (lit "ab cd ef gh")) < 5 - 1)
    by (vm_compute; reflexivity).
  destruct (split_text_terminates 5 7 (lit "ab cd ef gh") ltac:(lia) ltac:(lia))
    as (_ & Hterm).
  destruct (Hterm Hw) as (_ & Hret).
  split; [exact Hw|exact Hret].
Defined.

(** C4: an input that normalizes to the empty string gives the empty list,
    and no string of a list that [split_text] returns is empty. *)
Theorem split_text_chunks_nonempty (fuel : nat) (text : str) :
  (normalize text = [] -> split_text fuel text = Some []) /\
  (forall cs, split_text fuel text = Some cs -> Forall (fun c => c <> []) cs).
Proof.
  split; [apply split_text_with_empty|].
  intros cs Hrun.
  destruct (split_text_with_spans CHUNK_SIZE CHUNK_OVERLAP fuel text cs
              ltac:(by vm_compute) ltac:(by vm_compute) Hrun) as (Hsp & _ & Hall & _).
  simpl in Hsp. rewrite <- Hsp. apply Forall_fmap.
  eapply Forall_impl; [exact Hall|]. simpl. intros oc (_ & Hlen & _) Hnil.
  rewrite Hnil in Hlen. unfold len in Hlen. simpl in Hlen. lia.
Qed.

Lemma split_text_chunks_nonempty_witness :
  split_text 0 (NEWLINE :: lit "   ") = Some [] /\
  Forall (fun c => c <> []) [replicate 500 120%N; SPACE :: replicate 500 121%N].
Proof.
  destruct (split_text_chunks_nonempty 0 (NEWLINE :: lit "   ")) as [Hempty _].
  destruct (split_text_chunks_nonempty 3 two_blocks_text) as [_ Hne].
  split.
  - apply Hempty. vm_compute. reflexivity.
  - apply Hne. vm_compute. reflexivity.
Defined.

(** C10: when [split_text] returns, the chunks put end to end are the
    normalized text; each chunk starts at the offset where the one before
    it ended, the first at 0. *)
Theorem split_text_concat (fuel : nat) (text : str) (cs : list str) :
  split_text fuel text = Some cs ->
  concat cs = normalize text /\
  (spans CHUNK_SIZE CHUNK_OVERLAP fuel (normalize text) loop_init).*2 = cs /\
  contiguous 0 (spans CHUNK_SIZE CHUNK_OVERLAP fuel (normalize text) loop_init).
Proof.
  intros Hrun.
  destruct (split_text_with_spans CHUNK_SIZE CHUNK_OVERLAP fuel text cs
              ltac:(by vm_compute) ltac:(by vm_compute) Hrun)
    as (Hsp & Hcat & _ & Hcont & _).
  done.
Qed.

Lemma split_text_concat_witness :
  split_text 3 two_blocks_text = Some [replicate 500 120%N; SPACE :: replicate 500 121%N] /\
  concat [replicate 500 120%N; SPACE :: replicate 500 121%N] = normalize two_blocks_text.
Proof.
  assert (Hrun : split_text 3 two_blocks_text
                 = Some [replicate 500 120%N; SPACE :: replicate 500 121%N])
    by (vm_compute; reflexivity).
  split; [exact Hrun|].
  exact (proj1 (split_text_concat 3 two_blocks_text _ Hrun)).
Defined.

(** ** [ensure_collection] *)

Section EnsureCollection.
Context `{Services}.
Import IngestCloud.


(** The read failed, and not with status 404: the exception leaves
    [ensure_collection] and nothing was sent after the read. *)
Lemma cloud_ensure_collection_propagates (w : world) (e : exn) (e' : Env) :
  qdrant_get_collection COLLECTION_NAME (env w) = (Err e, e') ->
  (forall msg, e <> UnexpectedResponse 404 msg) ->
  ensure_collection w
  = (Raise e, {| env := e'; trace := trace w ++ [GetCollection COLLECTION_NAME] |}).
Proof.
  intros Hget Hne.
  unfold ensure_collection, try_except, bind, request, raise.
  rewrite Hget. cbn [env trace].
  destruct e as [code msg| | |]; try reflexivity.
  destruct (Z.eqb_spec code 404) as [->|]; [by destruct (Hne msg)|reflexivity].
Qed.

(** Status 404, and only it, leads to [create_collection]. *)
Lemma cloud_ensure_collection_absent (w : world) (msg : str) (e' : Env) :
  qdrant_get_collection COLLECTION_NAME (env w) = (Err (UnexpectedResponse 404 msg), e') ->
  exists r w',
    ensure_collection w = (r, w') /\
    exists rest,
      trace w' = trace w
                   ++ [GetCollection COLLECTION_NAME;
                       Print (lit "[!] Коллекция '" ++ COLLECTION_NAME
                                ++ lit "' отсутствует — создаю...");
                       CreateCollection COLLECTION_NAME
                         {| size := EMBEDDING_DIM; distance := COSINE |}]
                   ++ rest.
Proof.
  intros Hget.
  unfold ensure_collection, try_except, bind, request, print, emit.
  rewrite Hget. cbn [env trace Z.eqb Pos.eqb].
  destruct (qdrant_create_collection _ _ e') as [[[]|x] e''].
  - eexists _, _. split; [reflexivity|]. exists [Print (lit "[+] Коллекция создана.")].
    cbn [env trace]. by rewrite <- !app_assoc.
  - eexists _, _. split; [reflexivity|]. exists [].
    cbn [env trace]. by rewrite <- !app_assoc.
Qed.


(** [ingest_qdrant.py]: whatever the read failed with, the collection is
    taken to be absent. *)
Lemma local_ensure_collection_creates (name : option str) (w : world) (e : exn) (e' : Env) :
  qdrant_get_collection (IngestLocal.COLLECTION_NAME name) (env w) = (Err e, e') ->
  exists r w' rest,
    IngestLocal.ensure_collection name w = (r, w') /\
    trace w' = trace w
                 ++ [GetCollection (IngestLocal.COLLECTION_NAME name);
                     Print (lit "Коллекция '" ++ IngestLocal.COLLECTION_NAME name
                              ++ lit "' не найдена, создаём новую...");
                     CreateCollection (IngestLocal.COLLECTION_NAME name)
                       {| size := IngestLocal.EMBEDDING_DIM; distance := COSINE |}]
                 ++ rest.
Proof.
  intros Hget.
  unfold IngestLocal.ensure_collection, try_except, bind, request, print, emit.
  rewrite Hget. cbn [env trace].
  destruct (qdrant_create_collection _ _ e') as [[[]|x] e''].
  - eexists _, _, [Print _]. split; [reflexivity|].
    cbn [env trace]. by rewrite <- !app_assoc.
  - eexists _, _, []. split; [reflexivity|].
    cbn [env trace]. by rewrite <- !app_assoc.
Qed.

End EnsureCollection.

(** ** Retrieval *)

Section Retrieval.
Context `{Services}.
Import DemoApp.


End Retrieval.

(** ** Ingestion *)

Section Ingestion.
Context `{Services}.

(** A chunk whose embedding is obtained: what [ingest_files] appends. *)
Lemma embed_chunk_success (path ch : str) (st : IngestCloud.batch_state float)
      (w : world) (emb : list float) (e' : Env) :
  openai_embeddings_create IngestCloud.EMBEDDING_MODEL ch (env w) = (Ok emb, e') ->
  IngestCloud.embed_chunk path ch st w
  = (Return {| IngestCloud.vectors := IngestCloud.vectors st ++ [emb];
               IngestCloud.payloads := IngestCloud.payloads st
                 ++ [{[ "title"%string := VStr (basename path);
                        "content"%string := VStr ch ]}];
               IngestCloud.ids := IngestCloud.ids st ++ [IntId (IngestCloud.pid st)];
               IngestCloud.pid := IngestCloud.pid st + 1 |},
     {| env := e';
        trace := trace w ++ [EmbeddingsCreate IngestCloud.EMBEDDING_MODEL ch] |}).
Proof.
  intros Hemb.
  unfold IngestCloud.embed_chunk, IngestCloud.embed_text, try_except, bind, request, ret.
  by rewrite Hemb.
Qed.

(** A chunk whose embedding fails: one line printed, nothing appended,
    and the loop goes on. *)
Lemma embed_chunk_failure (path ch : str) (st : IngestCloud.batch_state float)
      (w : world) (x : exn) (e' : Env) :
  openai_embeddings_create IngestCloud.EMBEDDING_MODEL ch (env w) = (Err x, e') ->
  IngestCloud.embed_chunk path ch st w
  = (Return st,
     {| env := e';
        trace := trace w ++ [EmbeddingsCreate IngestCloud.EMBEDDING_MODEL ch;
                             Print (lit "Ошибка эмбеддинга: " ++ exn_str x)] |}).
Proof.
  intros Hemb.
  unfold IngestCloud.embed_chunk, IngestCloud.embed_text, try_except, bind, request,
    print, emit, ret.
  rewrite Hemb. cbn [env trace]. by rewrite <- app_assoc.
Qed.








End Ingestion.




(** C8, at the input on which [ingest_qdrant.py] departs from it: ten
    documents, and the fifth embedding request fails. [ingest_files] prints
    one line for the chunk it skips, upserts the nine other points and
    returns. [ingest_documents] has no handler around [get_embedding]: the
    exception ends the run, nothing is upserted and the collection it
    created stays empty. *)
Theorem ingest_documents_aborts_on_embedding_failure :
  (IngestCloud.ingest_files 3 (InMemory.boot InMemory.flaky_env)).1 = Return tt /\
  ids_of <$> upserts (trace (IngestCloud.ingest_files 3 (InMemory.boot InMemory.flaky_env)).2)
  = [IntId <$> [1; 2; 3; 4; 5; 6; 7; 8; 9]] /\
  filter (fun line => take 6 line = lit "Ошибка")
         (printed (trace (IngestCloud.ingest_files 3 (InMemory.boot InMemory.flaky_env)).2))
  = [lit "Ошибка эмбеддинга: embedding request failed"] /\
  (IngestLocal.ingest_documents None (InMemory.boot InMemory.flaky_env)).1
  = Raise (Exception (lit "embedding request failed")) /\
  upserts (trace (IngestLocal.ingest_documents None (InMemory.boot InMemory.flaky_env)).2) = [] /\
  InMemory.stored_in (IngestLocal.COLLECTION_NAME None)
    (env (IngestLocal.ingest_documents None (InMemory.boot InMemory.flaky_env)).2) = [].
Proof. repeat split; vm_compute; reflexivity. Qed.

(** C6, at the input on which [ingest_qdrant.py] departs from it: the
    store refuses the API key (status 401). [ingest_qdrant.ensure_collection]
    reports the collection as not found and sends [create_collection];
    [ingest_qdrant_cloud.ensure_collection] lets the exception through and
    sends nothing after the read. *)
Theorem local_ensure_collection_takes_failure_for_absence :
  trace (IngestLocal.ensure_collection None (InMemory.boot InMemory.unauthorized_env)).2
  = [GetCollection (IngestLocal.COLLECTION_NAME None);
     Print (lit "Коллекция '" ++ IngestLocal.COLLECTION_NAME None
              ++ lit "' не найдена, создаём новую...");
     CreateCollection (IngestLocal.COLLECTION_NAME None)
       {| size := 1536; distance := COSINE |}] /\
  (IngestCloud.ensure_collection (InMemory.boot InMemory.unauthorized_env)).1
  = Raise (UnexpectedResponse 401 (lit "Unauthorized")) /\
  trace (IngestCloud.ensure_collection (InMemory.boot InMemory.unauthorized_env)).2
  = [GetCollection IngestCloud.COLLECTION_NAME].
Proof. repeat split; vm_compute; reflexivity. Qed.



(** C9: when the embedding of the query is obtained and the search answers
    with no point, [search_qdrant] returns the empty context and the line
    saying that nothing was found; it raises nothing. *)
Theorem search_qdrant_no_results `{Services} (w : world) (query_text : str) (top_k : Z)
        (query_vec : list float) (e1 e2 : Env) :
  openai_embeddings_create (lit "text-embedding-3-small") query_text (env w)
  = (Ok query_vec, e1) ->
  qdrant_query_points DemoApp.COLLECTION_NAME query_vec top_k true e1 = (Ok [], e2) ->
  DemoApp.search_qdrant query_text top_k w
  = (Return ([], lit "Ничего не найдено в коллекции."),
     {| env := e2;
        trace := trace w
                   ++ [EmbeddingsCreate (lit "text-embedding-3-small") query_text;
                       QueryPoints DemoApp.COLLECTION_NAME query_vec top_k true] |}).
Proof.
  intros Hemb Hquery.
  unfold DemoApp.search_qdrant, DemoApp.embed_text, bind, request, ret.
  rewrite Hemb. cbn [env trace]. rewrite Hquery. cbn [env trace].
  by rewrite <- app_assoc.
Qed.

Lemma search_qdrant_no_results_witness :
  (DemoApp.search_qdrant (lit "Что изменится для УСН?") 5 InMemory.fresh_collection).1
  = Return ([], lit "Ничего не найдено в коллекции.").
Proof.
  refine (f_equal fst (search_qdrant_no_results InMemory.fresh_collection
            (lit "Что изменится для УСН?") 5 [22]
            (InMemory.embeddings_create (lit "text-embedding-3-small")
                               (lit "Что изменится для УСН?") (env InMemory.fresh_collection)).2
            (InMemory.embeddings_create (lit "text-embedding-3-small")
                               (lit "Что изменится для УСН?") (env InMemory.fresh_collection)).2
            _ _)).
  - vm_compute. reflexivity.
  - vm_compute. reflexivity.
Defined.

(** ** Normalization *)

Lemma split_from_words (s : str) :
  forall word, Forall (fun c => isspace c = false) word ->
               Forall is_word (split_from s word).
Proof.
  induction s as [|c r IH]; intros word Hw; simpl.
  - destruct word; [constructor|]. constructor; [by split|constructor].
  - destruct (isspace c) eqn:Hc.
    + destruct word; [by apply IH|]. constructor; [by split|]. by apply IH.
    + apply IH. apply Forall_app. split; [done|]. by repeat constructor.
Qed.

Lemma split_words (s : str) : Forall is_word (split s).
Proof. apply split_from_words. constructor. Qed.

Lemma isspace_SPACE : isspace SPACE = true.
Proof. reflexivity. Qed.

Lemma word_head (w : str) : is_word w -> exists c r, w = c :: r /\ isspace c = false.
Proof.
  intros [Hne Hall]. destruct w as [|c r]; [done|].
  inversion Hall; subst. eauto.
Qed.

Lemma word_last (w : str) : is_word w -> exists c, last w = Some c /\ isspace c = false.
Proof.
  intros [Hne Hall]. destruct (last w) as [c|] eqn:Hl.
  - exists c. split; [done|]. rewrite Forall_forall in Hall. apply Hall.
    apply last_Some in Hl as [l' ->]. set_solver.
  - by apply last_None in Hl.
Qed.

Lemma join_cons2 (sep x y : str) (r : list str) :
  join sep (x :: y :: r) = x ++ sep ++ join sep (y :: r).
Proof. reflexivity. Qed.

Lemma join_words_head (ws : list str) :
  Forall is_word ws ->
  match join [SPACE] ws with
  | [] => ws = []
  | c :: _ => isspace c = false
  end.
Proof.
  intros Hws. destruct ws as [|w ws]; [done|].
  inversion Hws as [|? ? Hw Hr]; subst.
  destruct (word_head w Hw) as (c & r & -> & Hc).
  destruct ws; simpl; done.
Qed.

Lemma join_words_last (ws : list str) :
  Forall is_word ws ->
  match last (join [SPACE] ws) with
  | None => ws = []
  | Some c => isspace c = false
  end.
Proof.
  induction ws as [|w ws IH]; intros Hws; [done|].
  inversion Hws as [|? ? Hw Hr]; subst.
  destruct ws as [|w2 ws].
  - simpl. by destruct (word_last w Hw) as (c & -> & Hc).
  - rewrite join_cons2. specialize (IH Hr).
    rewrite app_assoc, last_app.
    destruct (last (join [SPACE] (w2 :: ws))) as [c|]; [done|done].
Qed.

Lemma adjacent_spaces_app_word (w t : str) :
  is_word w -> adjacent_spaces (w ++ t) = adjacent_spaces t.
Proof.
  intros [_ Hall]. induction Hall as [|c r Hc Hr IH]; [done|].
  assert (Hne : (c =? SPACE)%N = false).
  { apply N.eqb_neq. intros ->. by rewrite isspace_SPACE in Hc. }
  change ((c :: r) ++ t) with (c :: (r ++ t)).
  destruct (r ++ t) as [|b q] eqn:E; [by destruct t; destruct r|].
  simpl. rewrite Hne. simpl. by rewrite <- IH.
Qed.

Lemma join_words_single_spaced (ws : list str) :
  Forall is_word ws -> adjacent_spaces (join [SPACE] ws) = false.
Proof.
  induction ws as [|w ws IH]; intros Hws; [done|].
  inversion Hws as [|? ? Hw Hr]; subst.
  destruct ws as [|w2 ws].
  - simpl. rewrite <- (app_nil_r w). by rewrite adjacent_spaces_app_word.
  - rewrite join_cons2, adjacent_spaces_app_word by done.
    pose proof (join_words_head (w2 :: ws) Hr) as Hh. specialize (IH Hr).
    destruct (join [SPACE] (w2 :: ws)) as [|c q] eqn:E; [done|].
    simpl. simpl in IH. rewrite IH.
    assert ((c =? SPACE)%N = false) as ->; [|done].
    apply N.eqb_neq. intros ->. by rewrite isspace_SPACE in Hh.
Qed.

Lemma join_words_only_spaces (ws : list str) :
  Forall is_word ws ->
  Forall (fun c => isspace c = true -> c = SPACE) (join [SPACE] ws).
Proof.
  induction ws as [|w ws IH]; intros Hws; [constructor|].
  inversion Hws as [|? ? [_ Hw] Hr]; subst.
  assert (Hword : Forall (fun c => isspace c = true -> c = SPACE) w).
  { eapply Forall_impl; [exact Hw|]. simpl. intros c -> [=]. }
  destruct ws as [|w2 ws]; [done|].
  rewrite join_cons2. apply Forall_app. split; [done|].
  constructor; [done|]. by apply IH.
Qed.

Lemma split_from_word_prefix (w rest : str) :
  Forall (fun c => isspace c = false) w ->
  forall word, split_from (w ++ rest) word = split_from rest (word ++ w).
Proof.
  induction 1 as [|c r Hc Hr IH]; intros word; simpl.
  - by rewrite app_nil_r.
  - rewrite Hc, IH. by rewrite <- app_assoc.
Qed.

Lemma split_join_words (ws : list str) :
  Forall is_word ws -> split (join [SPACE] ws) = ws.
Proof.
  unfold split. induction ws as [|w ws IH]; intros Hws; [done|].
  inversion Hws as [|? ? Hw Hr]; subst. destruct Hw as [Hne Hall].
  destruct ws as [|w2 ws].
  - simpl. rewrite <- (app_nil_r w) at 1. rewrite split_from_word_prefix by done.
    simpl. by destruct w.
  - rewrite join_cons2, split_from_word_prefix by done. simpl.
    destruct w; [done|]. f_equal. by apply IH.
Qed.

Lemma lstrip_id (t : str) :
  match t with [] => True | c :: _ => isspace c = false end -> lstrip t = t.
Proof. destruct t as [|c r]; [done|]. simpl. by intros ->. Qed.

Lemma strip_id (t : str) :
  match t with [] => True | c :: _ => isspace c = false end ->
  match last t with None => True | Some c => isspace c = false end ->
  strip t = t.
Proof.
  intros Hh Hl. unfold strip, rstrip. rewrite (lstrip_id t) by done.
  rewrite lstrip_id; [by rewrite rev_involutive|].
  destruct (rev t) as [|c r] eqn:E; [done|].
  assert (Ht : t = rev r ++ [c]).
  { rewrite <- (rev_involutive t), E. reflexivity. }
  rewrite Ht, last_snoc in Hl. done.
Qed.

(** X1: in the normalized text the only whitespace is the single space: it
    neither begins nor ends with one, no two stand side by side, and no
    other whitespace character (tab, newline, no-break space, ...) is
    left. *)
Theorem normalize_single_spaced (text : str) :
  Forall (fun c => isspace c = true -> c = SPACE) (normalize text) /\
  head (normalize text) <> Some SPACE /\
  last (normalize text) <> Some SPACE /\
  adjacent_spaces (normalize text) = false.
Proof.
  pose proof (split_words (strip text)) as Hws. unfold normalize.
  split; [by apply join_words_only_spaces|]. split; [|split].
  - pose proof (join_words_head _ Hws) as Hh.
    destruct (join [SPACE] (split (strip text))) as [|c q]; [done|].
    simpl. intros [= ->]. by rewrite isspace_SPACE in Hh.
  - pose proof (join_words_last _ Hws) as Hl.
    destruct (last (join [SPACE] (split (strip text)))) as [c|]; [|done].
    intros [= ->]. by rewrite isspace_SPACE in Hl.
  - by apply join_words_single_spaced.
Qed.

(** X2: normalizing twice is normalizing once. *)
Theorem normalize_idempotent (text : str) :
  normalize (normalize text) = normalize text.
Proof.
  pose proof (split_words (strip text)) as Hws.
  unfold normalize at 1. fold (normalize text).
  rewrite strip_id.
  - unfold normalize. by rewrite split_join_words.
  - pose proof (join_words_head _ Hws) as Hh. unfold normalize.
    by destruct (join [SPACE] (split (strip text))).
  - pose proof (join_words_last _ Hws) as Hl. unfold normalize.
    by destruct (last (join [SPACE] (split (strip text)))).
Qed.

(** ** More on [rfind] and on the windows *)

Lemma rfind_from_found (c : codepoint) (s : str) :
  forall i found, found < i ->
    rfind_from s c i found = found \/
    (i <= rfind_from s c i found /\
     s !! Z.to_nat (rfind_from s c i found - i) = Some c).
Proof.
  induction s as [|x r IH]; intros i found Hlt; simpl; [by left|].
  destruct (N.eqb_spec x c) as [->|Hne].
  - right. destruct (IH (i + 1) i ltac:(lia)) as [->|[Hle Hin]].
    + split; [lia|]. by rewrite Z.sub_diag.
    + split; [lia|].
      replace (Z.to_nat (rfind_from r c (i + 1) i - i))
        with (S (Z.to_nat (rfind_from r c (i + 1) i - (i + 1)))) by lia.
      done.
  - destruct (IH (i + 1) found ltac:(lia)) as [->|[Hle Hin]]; [by left|].
    right. split; [lia|].
    replace (Z.to_nat (rfind_from r c (i + 1) found - i))
      with (S (Z.to_nat (rfind_from r c (i + 1) found - (i + 1)))) by lia.
    done.
Qed.

Lemma rfind_from_none (c : codepoint) (q : str) :
  Forall (fun x => x <> c) q -> forall i found, rfind_from q c i found = found.
Proof.
  induction 1 as [|x r Hx Hr IH]; intros i found; simpl; [done|].
  rewrite IH. by destruct (N.eqb_spec x c).
Qed.

Lemma rfind_from_last (c : codepoint) (p q : str) :
  Forall (fun x => x <> c) q ->
  forall i found, rfind_from (p ++ c :: q) c i found = i + len p.
Proof.
  intros Hq. induction p as [|x p IH]; intros i found; simpl.
  - rewrite N.eqb_refl, rfind_from_none by done. unfold len. simpl. lia.
  - rewrite IH. unfold len. simpl length. lia.
Qed.

Lemma head_take_drop {A} (l : list A) (n o : nat) :
  (0 < n)%nat -> head (take n (drop o l)) = l !! o.
Proof.
  intros Hn. rewrite <- (Nat.add_0_r o) at 2. rewrite <- lookup_drop.
  destruct (drop o l); destruct n; simpl; try done; lia.
Qed.

Section Cuts.
Variables (size overlap : Z).
Hypothesis size_pos : 0 < size.
Hypothesis overlap_nonneg : 0 <= overlap.

(** With words shorter than [size - 1], a window that does not reach the
    end of the text ends on a space. *)
Lemma window_cut_at_space (text : str) (s : Z) :
  longest_word text < size - 1 ->
  0 <= s < len text ->
  snd (window size text s) < len text ->
  text !! Z.to_nat (snd (window size text s)) = Some SPACE.
Proof using size_pos.
  intros Hw Hs. unfold window.
  destruct (Z.ltb_spec (s + size) (len text)) as [Hlt|Hge]; [|simpl; lia].
  destruct (space_in_window text (size - 1) (s + 1) Hw ltac:(lia) ltac:(lia))
    as (j & Hj & Hsp).
  assert (Hin : slice text s (s + size) !! Z.to_nat (1 + j) = Some SPACE).
  { rewrite slice_take_drop by lia. rewrite lookup_take_lt by lia.
    rewrite lookup_drop. rewrite <- Hsp. f_equal. lia. }
  pose proof (rfind_from_lower _ SPACE 0 (-1) _ Hin) as Hr.
  destruct (rfind_from_found SPACE (slice text s (s + size)) 0 (-1) ltac:(lia))
    as [Hnone|[_ Hfound]]; [lia|].
  destruct (rfind_range (slice text s (s + size)) SPACE) as [|Hrange]; [unfold rfind in *; lia|].
  rewrite len_slice in Hrange by lia.
  fold (rfind (slice text s (s + size)) SPACE) in Hr, Hfound.
  set (ls := rfind (slice text s (s + size)) SPACE) in *.
  destruct (Z.eqb_spec ls (-1)); [lia|].
  simpl. intros _. rewrite Z.sub_0_r in Hfound.
  rewrite slice_take_drop in Hfound by lia.
  rewrite lookup_take_lt, lookup_drop in Hfound by lia.
  rewrite <- Hfound. f_equal. lia.
Qed.

Lemma spans_tail_spaces (text : str) :
  longest_word text < size - 1 ->
  forall (fuel : nat) st st',
    0 <= start st ->
    while_loop size overlap fuel text st = Some st' ->
    Forall (fun oc => text !! Z.to_nat oc.1 = Some SPACE)
           (tail (spans size overlap fuel text st)).
Proof using size_pos overlap_nonneg.
  intros Hw. induction fuel as [|fuel IH]; intros st st' Hst Hrun; [done|].
  rewrite while_loop_S in Hrun. simpl.
  destruct (Z.ltb_spec (start st) (len text)) as [Hlt|Hge]; [|constructor].
  simpl. pose proof (loop_body_start size overlap overlap_nonneg text st) as Hb.
  pose proof (window_advances size size_pos text (start st) Hw ltac:(lia)) as Hadv.
  assert (H0 : 0 <= start (loop_body size overlap text st)) by lia.
  specialize (IH _ _ H0 Hrun).
  destruct fuel as [|fuel]; [done|]. simpl in IH |- *.
  destruct (Z.ltb_spec (start (loop_body size overlap text st)) (len text)) as [Hlt'|];
    [|constructor].
  constructor; [|exact IH]. simpl. rewrite Hb in Hlt' |- *.
  by apply window_cut_at_space.
Qed.

End Cuts.

(** X3: a text whose normalized form is not empty and fits in one window
    gives exactly one chunk, the normalized text. *)
Theorem split_text_short (size overlap : Z) (text : str) :
  0 < size -> normalize text <> [] -> len (normalize text) <= size ->
  split_text_with size overlap 2 text = Some [normalize text].
Proof.
  intros Hsize Hne Hlen. rewrite split_text_with_nonempty by done.
  assert (Hpos : 0 < len (normalize text)).
  { pose proof (len_nonneg (normalize text)).
    assert (len (normalize text) <> 0) by (by rewrite len_nil_iff). lia. }
  rewrite while_loop_S. simpl start at 1.
  destruct (Z.ltb_spec 0 (len (normalize text))); [|lia].
  assert (Hbody : loop_body size overlap (normalize text) loop_init
                  = {| start := Z.max (size - overlap) size; chunks := [normalize text] |}).
  { unfold loop_body, window. simpl start.
    destruct (Z.ltb_spec (0 + size) (len (normalize text))); [lia|].
    simpl. f_equal. f_equal. rewrite slice_take_drop by lia.
    rewrite drop_0, take_ge; [done|]. unfold len in *. lia. }
  rewrite Hbody, while_loop_S. simpl start.
  destruct (Z.ltb_spec (Z.max (size - overlap) size) (len (normalize text))); [lia|done].
Qed.

Lemma split_text_short_witness :
  split_text_with 800 100 2 (lit "  Ставка НДС   20% сохраняется ")
  = Some [lit "Ставка НДС 20% сохраняется"].
Proof.
  assert (Hn : normalize (lit "  Ставка НДС   20% сохраняется ")
               = lit "Ставка НДС 20% сохраняется") by (vm_compute; reflexivity).
  rewrite <- Hn.
  apply split_text_short; [lia | rewrite Hn; vm_compute; discriminate
                          | rewrite Hn; vm_compute; discriminate].
Defined.

(** X4: when every word of the normalized text is shorter than [size - 1],
    no word is split: every chunk after the first begins with the space at
    which the chunk before it was cut. *)
Theorem split_text_cuts_at_spaces (size overlap : Z) (fuel : nat) (text : str)
        (cs : list str) :
  0 < size -> 0 <= overlap ->
  longest_word (normalize text) < size - 1 ->
  split_text_with size overlap fuel text = Some cs ->
  Forall (fun c => head c = Some SPACE) (tail cs).
Proof.
  intros Hsize Hov Hwords Hrun.
  destruct (split_text_with_spans size overlap fuel text cs Hsize Hov Hrun)
    as (Hsp & _ & Hall & Hcont & _).
  destruct (decide (normalize text = [])) as [Hnil|Hne].
  { rewrite split_text_with_empty in Hrun by done. injection Hrun as <-. constructor. }
  rewrite split_text_with_nonempty in Hrun by done.
  destruct (while_loop size overlap fuel (normalize text) loop_init) as [st'|] eqn:Hw;
    [|done].
  pose proof (spans_tail_spaces size overlap Hsize Hov (normalize text) Hwords
                fuel loop_init st' ltac:(simpl; lia) Hw) as Htail.
  destruct (contiguous_sorted _ 0 Hcont) as [_ Hlow].
  { eapply Forall_impl; [exact Hall|]. intros oc (_ & ? & _). lia. }
  simpl in Hsp. rewrite <- Hsp.
  destruct (spans size overlap fuel (normalize text) loop_init) as [|oc sp]; [constructor|].
  simpl in Htail |- *. inversion Hall as [|? ? _ Hrest]; subst.
  rewrite fmap_cons in Hlow. inversion Hlow as [|? ? _ Hlow']; subst.
  apply Forall_fmap. rewrite Forall_fmap in Hlow'.
  rewrite Forall_forall in Htail, Hrest, Hlow' |- *.
  intros [o c] Hin. specialize (Htail _ Hin). specialize (Hlow' _ Hin).
  destruct (Hrest _ Hin) as (Hc & Hlen & Hend).
  simpl in *. rewrite Hc, slice_take_drop by lia.
  rewrite head_take_drop by lia. done.
Qed.

Lemma split_text_cuts_at_spaces_witness :
  Forall (fun c => head c = Some SPACE) (tail [lit "ab"; lit " cd"; lit " ef"; lit " gh"]).
Proof.
  apply (split_text_cuts_at_spaces 5 2 9 (lit "  ab cd   ef gh ")).
  - lia.
  - lia.
  - vm_compute. reflexivity.
  - vm_compute. reflexivity.
Defined.

(** X5: inputs on which the loop hangs after its first cut. If the
    normalized text is a non-empty beginning [a] shorter than the window, a
    space, at least [size - 1] characters without a space, and something
    more, then the first chunk is [a], the second window opens on the
    space, is cut at index 0 and leaves the cursor where it was:
    [split_text] returns for no amount of fuel. *)
Theorem split_text_hangs_after_first_word (size overlap : Z) (text a b rest : str) :
  0 <= overlap ->
  normalize text = a ++ [SPACE] ++ b ++ rest ->
  a <> [] -> len a < size ->
  Forall (fun x => x <> SPACE) b ->
  size - 1 <= len b -> rest <> [] ->
  forall fuel, split_text_with size overlap fuel text = None.
Proof.
  intros Hov Hn Ha Hlen Hsb Hb Hrest fuel.
  assert (Hla : 0 < len a).
  { pose proof (len_nonneg a). assert (len a <> 0) by (by rewrite len_nil_iff). lia. }
  assert (Hlr : 0 < len rest).
  { pose proof (len_nonneg rest). assert (len rest <> 0) by (by rewrite len_nil_iff). lia. }
  set (T := a ++ [SPACE] ++ b ++ rest) in *.
  assert (HlT : len T = len a + 1 + len b + len rest).
  { unfold T. rewrite !len_app. unfold len. simpl. lia. }
  rewrite split_text_with_nonempty by (rewrite Hn; unfold T; by destruct a).
  rewrite Hn. destruct fuel as [|fuel]; [done|].
  rewrite while_loop_S. simpl start at 1.
  destruct (Z.ltb_spec 0 (len T)); [|lia].
  (* the first window is cut after [a] *)
  assert (Hw1 : window size T 0 = (a, len a)).
  { unfold window. destruct (Z.ltb_spec (0 + size) (len T)); [|lia].
    assert (Hc : slice T 0 (0 + size)
                 = a ++ SPACE :: take (Z.to_nat (size - len a - 1)) b).
    { rewrite slice_take_drop by lia. rewrite drop_0. unfold T.
      rewrite take_app. rewrite take_ge by (unfold len in *; lia).
      f_equal. simpl app.
      replace (Z.to_nat (0 + size - 0) - length a)%nat
        with (S (Z.to_nat (size - len a - 1))) by (unfold len in *; lia).
      simpl. f_equal. rewrite take_app. rewrite (proj2 (Nat.sub_0_le _ _));
        [by rewrite take_0, app_nil_r|]. unfold len in *. lia. }
    rewrite Hc. unfold rfind.
    rewrite rfind_from_last by (by apply Forall_take).
    destruct (Z.eqb_spec (0 + len a) (-1)); [lia|]. simpl. f_equal.
    rewrite slice_take_drop by lia. rewrite drop_0.
    rewrite take_app. rewrite take_ge by (unfold len in *; lia).
    replace (Z.to_nat (0 + len a - 0) - length a)%nat with 0%nat by (unfold len; lia).
    by rewrite take_0, app_nil_r. }
  assert (Hbody : loop_body size overlap T loop_init
                  = {| start := len a; chunks := [a] |}).
  { unfold loop_body. simpl start. rewrite Hw1. simpl. f_equal. lia. }
  rewrite Hbody.
  (* the second window opens on the space and is cut at index 0 *)
  rewrite stuck_diverges; [done|done|lia|].
  unfold window. destruct (Z.ltb_spec (len a + size) (len T)); [|lia].
  assert (Hc : slice T (len a) (len a + size)
               = [] ++ SPACE :: take (Z.to_nat (size - 1)) b).
  { rewrite slice_take_drop by lia. unfold T.
    rewrite drop_app_length'; [|unfold len; lia].
    replace (Z.to_nat (len a + size - len a)) with (S (Z.to_nat (size - 1))) by lia.
    simpl. f_equal. rewrite take_app. rewrite (proj2 (Nat.sub_0_le _ _));
      [by rewrite take_0, app_nil_r|]. unfold len in *. lia. }
  rewrite Hc. unfold rfind. rewrite rfind_from_last by (by apply Forall_take).
  change (len (@nil codepoint)) with 0. simpl. lia.
Qed.

Lemma split_text_hangs_after_first_word_witness :
  split_text_with 5 2 1000 (lit " ab   cdefg h ") = None.
Proof.
  generalize 1000%nat.
  apply (split_text_hangs_after_first_word 5 2 (lit " ab   cdefg h ")
           (lit "ab") (lit "cdefg") (lit " h")).
  - lia.
  - vm_compute. reflexivity.
  - discriminate.
  - vm_compute. reflexivity.
  - vm_compute. repeat constructor; discriminate.
  - vm_compute. discriminate.
  - discriminate.
Defined.

(** ** [ensure_collection], [main] and paths: error and edge behaviour *)

(** X6: when the read of [ingest_qdrant_cloud.ensure_collection] is answered
    with status 404, the script prints that the collection is absent and
    sends [create_collection] with size [EMBEDDING_DIM] and cosine distance;
    it returns when the creation succeeds and lets the exception of a
    failed creation through. *)
Theorem cloud_ensure_collection_creates_on_404 `{Services} (w : world) (msg : str)
        (e1 e2 : Env) (r : result unit) :
  qdrant_get_collection IngestCloud.COLLECTION_NAME (env w)
  = (Err (UnexpectedResponse 404 msg), e1) ->
  qdrant_create_collection IngestCloud.COLLECTION_NAME
    {| size := IngestCloud.EMBEDDING_DIM; distance := COSINE |} e1 = (r, e2) ->
  IngestCloud.ensure_collection w
  = (match r with Ok _ => Return tt | Err x => Raise x end,
     {| env := e2;
        trace := trace w
          ++ [GetCollection IngestCloud.COLLECTION_NAME;
              Print (lit "[!] Коллекция '" ++ IngestCloud.COLLECTION_NAME
                       ++ lit "' отсутствует — создаю...");
              CreateCollection IngestCloud.COLLECTION_NAME
                {| size := IngestCloud.EMBEDDING_DIM; distance := COSINE |}]
          ++ match r with
             | Ok _ => [Print (lit "[+] Коллекция создана.")]
             | Err _ => []
             end |}).
Proof.
  intros Hget Hcreate.
  unfold IngestCloud.ensure_collection, try_except, bind, request, print, emit.
  rewrite Hget. cbn [env trace Z.eqb Pos.eqb]. rewrite Hcreate.
  destruct r as [[]|x]; cbn [env trace]; by rewrite <- !app_assoc.
Qed.

Lemma cloud_ensure_collection_creates_on_404_witness :
  (IngestCloud.ensure_collection (InMemory.boot InMemory.empty_env)).1 = Return tt /\
  Exists is_create (trace (IngestCloud.ensure_collection (InMemory.boot InMemory.empty_env)).2).
Proof.
  rewrite (cloud_ensure_collection_creates_on_404 (InMemory.boot InMemory.empty_env)
             (lit "Not found: Collection doesn't exist!")
             InMemory.empty_env
             (InMemory.create_collection IngestCloud.COLLECTION_NAME
                {| size := 1536; distance := COSINE |} InMemory.empty_env).2
             (Ok tt));
    [|vm_compute; reflexivity|vm_compute; reflexivity].
  split; [reflexivity|]. cbn [snd trace].
  apply Exists_app. right. do 2 apply Exists_cons_tl. by apply Exists_cons_hd.
Defined.

(** X7: when that read fails with anything but status 404 (another status,
    a transport error), [ingest_qdrant_cloud.ensure_collection] raises the
    same exception and has sent nothing but the read. *)
Theorem cloud_ensure_collection_reraises `{Services} (w : world) (e : exn) (e' : Env) :
  qdrant_get_collection IngestCloud.COLLECTION_NAME (env w) = (Err e, e') ->
  (forall msg, e <> UnexpectedResponse 404 msg) ->
  IngestCloud.ensure_collection w
  = (Raise e,
     {| env := e'; trace := trace w ++ [GetCollection IngestCloud.COLLECTION_NAME] |}).
Proof.
  intros Hget Hne.
  unfold IngestCloud.ensure_collection, try_except, bind, request, raise.
  rewrite Hget. cbn [env trace].
  destruct e as [code msg| | |]; try reflexivity.
  destruct (Z.eqb_spec code 404) as [->|]; [by destruct (Hne msg)|reflexivity].
Qed.

Lemma cloud_ensure_collection_reraises_witness :
  (IngestCloud.ensure_collection (InMemory.boot InMemory.unauthorized_env)).1
  = Raise (UnexpectedResponse 401 (lit "Unauthorized")).
Proof.
  rewrite (cloud_ensure_collection_reraises (InMemory.boot InMemory.unauthorized_env)
             (UnexpectedResponse 401 (lit "Unauthorized")) InMemory.unauthorized_env);
    [reflexivity | vm_compute; reflexivity | intros msg [=]].
Defined.

(** X8: when the collection is found but its [vectors] is an empty [dict],
    [list(vectors.values())[0]] raises [IndexError]; the handler takes only
    [UnexpectedResponse], so the exception leaves
    [ingest_qdrant_cloud.ensure_collection], nothing is printed and nothing
    is created. *)
Theorem cloud_ensure_collection_empty_named_vectors `{Services} (w : world)
        (info : CollectionInfo) (e' : Env) :
  qdrant_get_collection IngestCloud.COLLECTION_NAME (env w) = (Ok info, e') ->
  Effects.vectors info = NamedVectors [] ->
  IngestCloud.ensure_collection w
  = (Raise (IndexError (lit "list index out of range")),
     {| env := e'; trace := trace w ++ [GetCollection IngestCloud.COLLECTION_NAME] |}).
Proof.
  intros Hget Hvec.
  unfold IngestCloud.ensure_collection, IngestCloud.stored_size, try_except, bind,
    request, raise.
  by rewrite Hget, Hvec.
Qed.

Lemma cloud_ensure_collection_empty_named_vectors_witness :
  (IngestCloud.ensure_collection (InMemory.boot no_named_vectors_env)).1
  = Raise (IndexError (lit "list index out of range")).
Proof.
  rewrite (cloud_ensure_collection_empty_named_vectors (InMemory.boot no_named_vectors_env)
             {| Effects.vectors := NamedVectors [] |} no_named_vectors_env);
    [reflexivity | vm_compute; reflexivity | reflexivity].
Defined.

(** X9: [main] of [create_collection_moedelo.py] with [QDRANT_URL] or
    [QDRANT_API_KEY] unset or empty raises [RuntimeError] before it sends
    anything: the collection is not touched. *)
Theorem main_refuses_missing_configuration `{Services} (w : world)
        (url key name : option str) :
  CreateCollection.unset url = true \/ CreateCollection.unset key = true ->
  (CreateCollection.main url key name w).2 = w /\
  exists msg, (CreateCollection.main url key name w).1 = Raise (RuntimeError msg).
Proof.
  intros Hunset. unfold CreateCollection.main.
  destruct (CreateCollection.unset url) eqn:Hu; [split; [done|by eexists]|].
  destruct Hunset as [|Hk]; [done|]. rewrite Hk. split; [done|by eexists].
Qed.

Lemma main_refuses_missing_configuration_witness :
  (CreateCollection.main (Some (lit "https://example.qdrant.io")) (Some []) None
     InMemory.fresh_collection).2 = InMemory.fresh_collection.
Proof.
  apply (main_refuses_missing_configuration InMemory.fresh_collection
           (Some (lit "https://example.qdrant.io")) (Some []) None).
  right. reflexivity.
Defined.



(** ** The order of the files *)

Lemma str_leb_total (a : str) : forall b, str_leb a b = true \/ str_leb b a = true.
Proof.
  induction a as [|x a IH]; intros [|y b]; simpl; auto.
  destruct (N.ltb_spec x y), (N.ltb_spec y x); auto; try lia.
Qed.

Lemma str_leb_trans (a : str) :
  forall b c, str_leb a b = true -> str_leb b c = true -> str_leb a c = true.
Proof.
  induction a as [|x a IH]; intros [|y b] [|z c]; simpl; try done.
  destruct (N.ltb_spec x y), (N.ltb_spec y x), (N.ltb_spec y z), (N.ltb_spec z y),
    (N.ltb_spec x z), (N.ltb_spec z x); try done; try lia.
  apply IH.
Qed.

(** [sorted] keeps the paths it is given, each as often as it came,
    and puts them in the order of [str]: every path is at most every later
    one. [ingest_files] numbers the points in that order. *)
Theorem sorted_is_ordered_permutation (l : list str) :
  sorted l ≡ₚ l /\
  StronglySorted (fun a b => str_leb a b = true) (sorted l).
Proof.
  split; [apply merge_sort_Permutation|].
  assert (Htrans : Transitive (fun a b : str => Is_true (str_leb a b))).
  { intros a b c Hab Hbc. apply Is_true_true. apply Is_true_true in Hab, Hbc.
    by eapply str_leb_trans. }
  assert (Htotal : Total (fun a b : str => Is_true (str_leb a b))).
  { intros a b. destruct (str_leb_total a b) as [Hl|Hl]; [left|right];
      by apply Is_true_true. }
  pose proof (StronglySorted_merge_sort (fun a b : str => Is_true (str_leb a b)) l) as Hs.
  unfold sorted. induction Hs as [|x r Hr IH Hx]; constructor; [done|].
  eapply Forall_impl; [exact Hx|]. intros y Hy. by apply Is_true_true.
Qed.

(** ** Ingestion: what is sent, in which order *)

Section IngestionOrder.
Context `{Services}.
Implicit Types (P : event float -> Prop).

Lemma cloud_ensure_collection_spec P :
  (forall line, P (Print line)) ->
  P (GetCollection IngestCloud.COLLECTION_NAME) ->
  P (CreateCollection IngestCloud.COLLECTION_NAME
       {| size := IngestCloud.EMBEDDING_DIM; distance := COSINE |}) ->
  spec IngestCloud.ensure_collection P (fun _ => True).
Proof.
  intros Hprint Hget Hcreate. unfold IngestCloud.ensure_collection.
  apply spec_try_except.
  - eapply spec_bind; [by apply spec_request|]. intros info _.
    eapply spec_bind with (Q1 := fun _ => True).
    { destruct (IngestCloud.stored_size info); [by apply spec_ret|apply spec_raise]. }
    intros sz _. eapply spec_bind; [by apply spec_print|]. intros _ _.
    destruct (bool_decide _); [by apply spec_print|by apply spec_ret].
  - intros [code msg| | |]; try apply spec_raise.
    destruct (code =? 404); [|apply spec_raise].
    eapply spec_bind; [by apply spec_print|]. intros _ _.
    eapply spec_bind; [by apply spec_request|]. intros _ _.
    by apply spec_print.
Qed.

Lemma embed_chunk_spec P (path ch : str) (st : IngestCloud.batch_state float) :
  (forall line, P (Print line)) ->
  (forall input, P (EmbeddingsCreate IngestCloud.EMBEDDING_MODEL input)) ->
  spec (IngestCloud.embed_chunk path ch st) P (fun _ => True).
Proof.
  intros Hprint Hemb. unfold IngestCloud.embed_chunk, IngestCloud.embed_text.
  eapply spec_bind with (Q1 := fun _ => True).
  - apply spec_try_except.
    + eapply spec_bind; [by apply spec_request|]. intros emb _. by apply spec_ret.
    + intros x. eapply spec_bind; [by apply spec_print|]. intros _ _. by apply spec_ret.
  - intros [emb|] _; by apply spec_ret.
Qed.

Lemma ingest_loop_spec P (fuel : nat) (items : list (Z * str))
      (st : IngestCloud.batch_state float) :
  (forall line, P (Print line)) ->
  (forall path, P (ReadFile path)) ->
  (forall input, P (EmbeddingsCreate IngestCloud.EMBEDDING_MODEL input)) ->
  spec (for_each items (IngestCloud.ingest_file fuel) st) P (fun _ => True).
Proof.
  intros Hprint Hread Hemb.
  apply (spec_for_each _ _ _ (fun _ _ => True)); [|done].
  intros i [idx path] s _ _. unfold IngestCloud.ingest_file.
  eapply spec_bind; [by apply spec_print|]. intros _ _.
  eapply spec_bind; [by apply spec_request|]. intros text _.
  eapply spec_bind with (Q1 := fun _ => True).
  { unfold IngestCloud.split_text_call.
    destruct (split_text fuel text); [by apply spec_ret|apply spec_diverge]. }
  intros cs _. destruct cs as [|c cs].
  - eapply spec_bind; [by apply spec_print|]. intros _ _. by apply spec_ret.
  - apply (spec_for_each _ _ (c :: cs) (fun _ _ => True)); [|done].
    intros j ch s' _ _. by apply embed_chunk_spec.
Qed.

Lemma ingest_files_spec P (fuel : nat) :
  (forall line, P (Print line)) ->
  P (GetCollection IngestCloud.COLLECTION_NAME) ->
  P (CreateCollection IngestCloud.COLLECTION_NAME
       {| size := IngestCloud.EMBEDDING_DIM; distance := COSINE |}) ->
  (forall pattern, P (Glob pattern)) ->
  (forall path, P (ReadFile path)) ->
  (forall input, P (EmbeddingsCreate IngestCloud.EMBEDDING_MODEL input)) ->
  (forall ps, P (Upsert IngestCloud.COLLECTION_NAME ps)) ->
  spec (IngestCloud.ingest_files fuel) P (fun _ => True).
Proof.
  intros Hprint Hget Hcreate Hglob Hread Hemb Hup. unfold IngestCloud.ingest_files.
  eapply spec_bind; [by apply spec_print|]. intros _ _.
  eapply spec_bind; [by apply spec_print|]. intros _ _.
  eapply spec_bind; [by apply cloud_ensure_collection_spec|]. intros _ _.
  eapply spec_bind; [by apply spec_ask|]. intros found _.
  eapply spec_bind; [by apply spec_print|]. intros _ _.
  destruct (sorted found) as [|f fs]; [by apply spec_print|].
  eapply spec_bind; [by apply ingest_loop_spec|]. intros st _.
  eapply spec_bind; [by apply spec_request|]. intros _ _.
  by apply spec_print.
Qed.

Lemma local_ensure_collection_spec P (name : option str) :
  (forall line, P (Print line)) ->
  P (GetCollection (IngestLocal.COLLECTION_NAME name)) ->
  P (CreateCollection (IngestLocal.COLLECTION_NAME name)
       {| size := IngestLocal.EMBEDDING_DIM; distance := COSINE |}) ->
  spec (IngestLocal.ensure_collection name) P (fun _ => True).
Proof.
  intros Hprint Hget Hcreate. unfold IngestLocal.ensure_collection.
  apply spec_try_except.
  - eapply spec_bind; [by apply spec_request|]. intros _ _. by apply spec_print.
  - intros _. eapply spec_bind; [by apply spec_print|]. intros _ _.
    eapply spec_bind; [by apply spec_request|]. intros _ _. by apply spec_print.
Qed.

Lemma local_loop_spec P (items : list (Z * str)) (points : list (PointStruct float)) :
  (forall line, P (Print line)) ->
  (forall input, P (EmbeddingsCreate IngestLocal.EMBEDDING_MODEL input)) ->
  P Uuid4 ->
  spec (for_each items IngestLocal.ingest_document points) P (fun _ => True).
Proof.
  intros Hprint Hemb Huuid.
  apply (spec_for_each _ _ _ (fun _ _ => True)); [|done].
  intros i [idx doc] s _ _. unfold IngestLocal.ingest_document, IngestLocal.get_embedding.
  eapply spec_bind; [by apply spec_print|]. intros _ _.
  eapply spec_bind; [by apply spec_request|]. intros emb _.
  eapply spec_bind; [by apply spec_ask|]. intros uuid _. by apply spec_ret.
Qed.

Lemma ingest_documents_spec P (name : option str) :
  (forall line, P (Print line)) ->
  P (GetCollection (IngestLocal.COLLECTION_NAME name)) ->
  P (CreateCollection (IngestLocal.COLLECTION_NAME name)
       {| size := IngestLocal.EMBEDDING_DIM; distance := COSINE |}) ->
  (forall input, P (EmbeddingsCreate IngestLocal.EMBEDDING_MODEL input)) ->
  P Uuid4 ->
  (forall ps, P (Upsert (IngestLocal.COLLECTION_NAME name) ps)) ->
  spec (IngestLocal.ingest_documents name) P (fun _ => True).
Proof.
  intros Hprint Hget Hcreate Hemb Huuid Hup. unfold IngestLocal.ingest_documents.
  eapply spec_bind; [by apply spec_print|]. intros _ _.
  eapply spec_bind; [by apply local_ensure_collection_spec|]. intros _ _.
  eapply spec_bind; [by apply spec_print|]. intros _ _.
  eapply spec_bind; [by apply local_loop_spec|]. intros points _.
  eapply spec_bind; [by apply spec_request|]. intros _ _.
  eapply spec_bind; [by apply spec_print|]. intros _ _.
  by apply spec_print.
Qed.

Lemma upsert_last_prefix (e1 e2 : list (event float)) :
  Forall (fun ev => ~ is_upsert ev) e1 -> upsert_last e2 -> upsert_last (e1 ++ e2).
Proof.
  intros H1 [H2|(pre & name & ps & post & -> & Hpre & Hpost)].
  - left. by apply Forall_app.
  - right. exists (e1 ++ pre), name, ps, post. rewrite <- app_assoc.
    split; [done|]. split; [by apply Forall_app|done].
Qed.

Lemma sends_upsert_last_bind {A B} (m : M A) (k : A -> M B) :
  spec m (fun ev => ~ is_upsert ev) (fun _ => True) ->
  (forall a, sends_upsert_last (k a)) ->
  sends_upsert_last (bind m k).
Proof.
  intros Hm Hk w. destruct (Hm w) as [(e1 & Ht1 & Hf1) _]. unfold bind.
  destruct (m w) as [[a|x|] w1]; simpl in *.
  - destruct (Hk a w1) as (e2 & Ht2 & Hl2). exists (e1 ++ e2).
    rewrite Ht2, Ht1, app_assoc. split; [done|]. by apply upsert_last_prefix.
  - exists e1. split; [done|]. by left.
  - exists e1. split; [done|]. by left.
Qed.

Lemma sends_upsert_last_none {A} (m : M A) :
  spec m (fun ev => ~ is_upsert ev) (fun _ => True) -> sends_upsert_last m.
Proof.
  intros Hm w. destruct (Hm w) as [(e1 & Ht1 & Hf1) _]. exists e1. split; [done|by left].
Qed.

(** An [upsert] followed by printing. *)
Lemma sends_upsert_last_final {A} (name : str) (ps : Points float)
      (answer : Env -> result A * Env) (k : A -> M unit) :
  (forall a, spec (k a) is_print (fun _ => True)) ->
  sends_upsert_last (bind (request (Upsert name ps) answer) k).
Proof.
  intros Hk w. unfold bind, request. destruct (answer (env w)) as [[a|x] e1].
  - destruct (Hk a {| env := e1; trace := trace w ++ [Upsert name ps] |})
      as [(e2 & Ht2 & Hf2) _].
    exists (Upsert name ps :: e2). simpl in *. rewrite Ht2, <- app_assoc.
    split; [done|]. right. exists [], name, ps, e2. by repeat split.
  - exists [Upsert name ps]. split; [done|]. right. exists [], name, ps, [].
    by repeat split.
Qed.

End IngestionOrder.

(** X11: when [ensure_collection] has returned and the directory holds no
    [.txt] file, [ingest_files] prints that nothing was found and returns:
    no file is read, no embedding is requested and nothing is upserted. *)
Theorem ingest_files_nothing_found `{Services} (fuel : nat) (w w2 : world) (e3 : Env) :
  IngestCloud.ensure_collection
    {| env := env w;
       trace := (trace w
                   ++ [Print (lit "Загрузка данных в '" ++ IngestCloud.COLLECTION_NAME
                                ++ lit "'...")])
                  ++ [Print (lit "Папка: " ++ IngestCloud.INPUT_DIR)] |}
  = (Return tt, w2) ->
  os_glob (path_join IngestCloud.INPUT_DIR (lit "*.txt")) (env w2) = ([], e3) ->
  IngestCloud.ingest_files fuel w
  = (Return tt,
     {| env := e3;
        trace := trace w2
          ++ [Glob (path_join IngestCloud.INPUT_DIR (lit "*.txt"));
              Print (lit "Найдено файлов: " ++ str_of_int 0);
              Print (lit "Нет файлов для обработки.")] |}).
Proof.
  intros Hens Hglob.
  unfold IngestCloud.ingest_files, bind, print, emit, ask. cbn [env trace].
  rewrite Hens. rewrite Hglob. cbn [env trace sorted].
  change (sorted []) with (@nil str). cbn [env trace].
  by rewrite <- !app_assoc.
Qed.

Lemma ingest_files_nothing_found_witness :
  (IngestCloud.ingest_files 3 (InMemory.boot InMemory.empty_env)).1 = Return tt /\
  upserts (trace (IngestCloud.ingest_files 3 (InMemory.boot InMemory.empty_env)).2) = [].
Proof.
  rewrite (ingest_files_nothing_found 3 (InMemory.boot InMemory.empty_env)
             after_ensure (env after_ensure)).
  - split; [reflexivity|]. vm_compute. reflexivity.
  - unfold after_ensure.
    rewrite (surjective_pairing (IngestCloud.ensure_collection _)) at 1.
    f_equal.
  - vm_compute. reflexivity.
Defined.

(** X12: no failure of an embedding request stops the loop over the chunks
    of a file. Whatever the endpoint answers, the loop returns; each chunk
    has either added one point or printed one line, and nothing else was
    printed. *)
Theorem embedding_failures_are_skipped `{Services} (path : str) (chunks : list str) :
  forall (st : IngestCloud.batch_state float) (w : world),
  exists st' e' evs,
    for_each chunks (IngestCloud.embed_chunk path) st w
    = (Return st', {| env := e'; trace := trace w ++ evs |}) /\
    (length (IngestCloud.payloads st') + length (printed evs)
     = length (IngestCloud.payloads st) + length chunks)%nat.
Proof.
  induction chunks as [|ch chunks IH]; intros st w.
  - exists st, (env w), []. simpl. rewrite app_nil_r. split; [by destruct w|lia].
  - simpl for_each. unfold bind.
    destruct (openai_embeddings_create IngestCloud.EMBEDDING_MODEL ch (env w))
      as [[emb|x] e1] eqn:Hemb.
    + rewrite (embed_chunk_success path ch st w emb e1 Hemb).
      destruct (IH {| IngestCloud.vectors := IngestCloud.vectors st ++ [emb];
                      IngestCloud.payloads := IngestCloud.payloads st
                        ++ [{[ "title"%string := VStr (basename path);
                               "content"%string := VStr ch ]}];
                      IngestCloud.ids := IngestCloud.ids st ++ [IntId (IngestCloud.pid st)];
                      IngestCloud.pid := IngestCloud.pid st + 1 |}
                   {| env := e1;
                      trace := trace w ++ [EmbeddingsCreate IngestCloud.EMBEDDING_MODEL ch] |})
        as (st' & e' & evs & -> & Hcount).
      exists st', e', (EmbeddingsCreate IngestCloud.EMBEDDING_MODEL ch :: evs).
      cbn [trace]. rewrite <- app_assoc. split; [done|].
      simpl in Hcount |- *. rewrite length_app in Hcount. simpl in Hcount. lia.
    + rewrite (embed_chunk_failure path ch st w x e1 Hemb).
      destruct (IH st {| env := e1;
                         trace := trace w
                           ++ [EmbeddingsCreate IngestCloud.EMBEDDING_MODEL ch;
                               Print (lit "Ошибка эмбеддинга: " ++ exn_str x)] |})
        as (st' & e' & evs & -> & Hcount).
      exists st', e', (EmbeddingsCreate IngestCloud.EMBEDDING_MODEL ch
                         :: Print (lit "Ошибка эмбеддинга: " ++ exn_str x) :: evs).
      cbn [trace]. rewrite <- app_assoc. split; [done|].
      simpl in Hcount |- *. lia.
Qed.

(** X13: a file that holds nothing but whitespace is read and passed over:
    one line is printed for it, no embedding is requested and the lists of
    the batch are left as they were. *)
Theorem ingest_file_skips_blank_file `{Services} (fuel : nat) (idx : Z) (path text : str)
        (st : IngestCloud.batch_state float) (w : world) (e' : Env) :
  os_read_file path (env w) = (Ok text, e') ->
  normalize text = [] ->
  IngestCloud.ingest_file fuel (idx, path) st w
  = (Return st,
     {| env := e';
        trace := trace w
          ++ [Print (lit "[" ++ str_of_int idx ++ lit "] Файл: " ++ basename path);
              ReadFile path;
              Print (lit "   Пусто — пропуск.")] |}).
Proof.
  intros Hread Hblank.
  unfold IngestCloud.ingest_file, IngestCloud.split_text_call, bind, request, print,
    emit, ret.
  cbn [env trace]. rewrite Hread. unfold split_text.
  rewrite split_text_with_empty by done. cbn [env trace].
  by rewrite <- !app_assoc.
Qed.

Lemma ingest_file_skips_blank_file_witness :
  (IngestCloud.ingest_file 0 (1, lit "tokens/blank.txt")
     {| IngestCloud.vectors := []; IngestCloud.payloads := [];
        IngestCloud.ids := []; IngestCloud.pid := 1 |}
     (InMemory.boot blank_file_env)).1
  = Return {| IngestCloud.vectors := []; IngestCloud.payloads := [];
              IngestCloud.ids := []; IngestCloud.pid := 1 |}.
Proof.
  rewrite (ingest_file_skips_blank_file 0 1 (lit "tokens/blank.txt")
             [SPACE; NEWLINE; 9%N; SPACE] _ (InMemory.boot blank_file_env) blank_file_env).
  - reflexivity.
  - vm_compute. reflexivity.
  - vm_compute. reflexivity.
Defined.

Ltac not_upsert := by (intros; intros []).

(** X14: [ingest_files] and [ingest_documents] send at most one [upsert];
    every request for a collection, a file or an embedding comes before it
    and only printing comes after it. *)
Theorem ingestion_upserts_once_at_the_end `{Services} :
  (forall fuel, sends_upsert_last (IngestCloud.ingest_files fuel)) /\
  (forall name, sends_upsert_last (IngestLocal.ingest_documents name)).
Proof.
  split.
  - intros fuel. unfold IngestCloud.ingest_files.
    apply sends_upsert_last_bind; [apply spec_print; not_upsert|]. intros _.
    apply sends_upsert_last_bind; [apply spec_print; not_upsert|]. intros _.
    apply sends_upsert_last_bind; [apply cloud_ensure_collection_spec; not_upsert|].
    intros _.
    apply sends_upsert_last_bind; [apply spec_ask; not_upsert|]. intros found.
    apply sends_upsert_last_bind; [apply spec_print; not_upsert|]. intros _.
    destruct (sorted found) as [|f fs].
    + apply sends_upsert_last_none. apply spec_print; not_upsert.
    + apply sends_upsert_last_bind; [apply ingest_loop_spec; not_upsert|]. intros st.
      apply sends_upsert_last_final. intros _. by apply spec_print.
  - intros name. unfold IngestLocal.ingest_documents.
    apply sends_upsert_last_bind; [apply spec_print; not_upsert|]. intros _.
    apply sends_upsert_last_bind; [apply local_ensure_collection_spec; not_upsert|].
    intros _.
    apply sends_upsert_last_bind; [apply spec_print; not_upsert|]. intros _.
    apply sends_upsert_last_bind; [apply local_loop_spec; not_upsert|]. intros points.
    apply sends_upsert_last_final. intros _.
    eapply spec_bind; [by apply spec_print|]. intros _ _. by apply spec_print.
Qed.

(** X15: every script asks for embeddings from the same model,
    [text-embedding-3-small], at ingestion and at query time, and every
    script that creates or recreates the collection gives it size 1536 and
    cosine distance. *)
Theorem scripts_agree_on_model_and_schema `{Services} (w : world) :
  (forall fuel, sends_only schema_ok w (IngestCloud.ingest_files fuel w).2) /\
  (forall name, sends_only schema_ok w (IngestLocal.ingest_documents name w).2) /\
  (forall query_text top_k,
      sends_only schema_ok w (DemoApp.search_qdrant query_text top_k w).2) /\
  (forall url key name, sends_only schema_ok w (CreateCollection.main url key name w).2).
Proof.
  repeat apply conj.
  - intros fuel. by apply ingest_files_spec.
  - intros name. by apply ingest_documents_spec.
  - intros query_text top_k.
    assert (Hs : spec (DemoApp.search_qdrant query_text top_k) schema_ok (fun _ => True)).
    { unfold DemoApp.search_qdrant, DemoApp.embed_text.
      eapply spec_bind; [by apply spec_request|]. intros vec _.
      eapply spec_bind; [by apply spec_request|]. intros points _.
      destruct points; by apply spec_ret. }
    apply Hs.
  - intros url key name.
    assert (Hs : spec (CreateCollection.main url key name) schema_ok (fun _ => True)).
    { unfold CreateCollection.main.
      destruct (CreateCollection.unset url); [apply spec_raise|].
      destruct (CreateCollection.unset key); [apply spec_raise|].
      eapply spec_bind; [by apply spec_request|]. intros _ _. by apply spec_print. }
    apply Hs.
Qed.

(** ** Retrieval: requests and context *)

Lemma join_nonempty (sep x : str) (r : list str) : x <> [] -> join sep (x :: r) <> [].
Proof. intros Hx. destruct r; simpl; [done|]. by destruct x. Qed.

(** X16: when the embedding is obtained and the search answers, the
    context that [search_qdrant] returns is empty exactly when no point was
    found; a caller that tests [if context] tells the two cases apart. *)
Theorem search_qdrant_context_empty_iff `{Services} (w : world) (query_text : str)
        (top_k : Z) (query_vec : list float) (points : list (ScoredPoint float))
        (e1 e2 : Env) :
  openai_embeddings_create (lit "text-embedding-3-small") query_text (env w)
  = (Ok query_vec, e1) ->
  qdrant_query_points DemoApp.COLLECTION_NAME query_vec top_k true e1 = (Ok points, e2) ->
  exists context debug_info,
    (DemoApp.search_qdrant query_text top_k w).1 = Return (context, debug_info) /\
    (context = [] <-> points = []).
Proof.
  intros Hemb Hquery.
  unfold DemoApp.search_qdrant, DemoApp.embed_text, bind, request, ret.
  rewrite Hemb. cbn [env trace]. rewrite Hquery. cbn [env trace].
  destruct points as [|p points]; [by eexists _, _|].
  eexists _, _. split; [reflexivity|]. split; [|done].
  intros Hnil. exfalso. revert Hnil. simpl enumerate. rewrite !fmap_cons.
  apply join_nonempty. unfold DemoApp.render. simpl fst. done.
Qed.

Lemma search_qdrant_context_empty_iff_witness :
  exists context debug_info,
    (DemoApp.search_qdrant (lit "document number 3") 2 ten_files_loaded).1
    = Return (context, debug_info) /\
    context <> [].
Proof.
  destruct (search_qdrant_context_empty_iff ten_files_loaded (lit "document number 3") 2
              [17] two_found
              (InMemory.embeddings_create (lit "text-embedding-3-small")
                 (lit "document number 3") (env ten_files_loaded)).2
              (InMemory.embeddings_create (lit "text-embedding-3-small")
                 (lit "document number 3") (env ten_files_loaded)).2)
    as (context & debug_info & Hrun & Hiff).
  - vm_compute. reflexivity.
  - vm_compute. reflexivity.
  - exists context, debug_info. split; [exact Hrun|].
    intros Hc. apply Hiff in Hc. vm_compute in Hc. discriminate.
Defined.

(** X17: [search_qdrant] sends the embedding request for the query and, when
    that is answered, one search with [limit = top_k] and payloads asked
    for; an exception of either request leaves the function as it came, and
    an exception of the embedding request means that no search is sent. *)
Theorem search_qdrant_requests `{Services} (w : world) (query_text : str) (top_k : Z) :
  (exists x,
      (DemoApp.search_qdrant query_text top_k w).1 = Raise x /\
      openai_embeddings_create (lit "text-embedding-3-small") query_text (env w)
      = (Err x, env (DemoApp.search_qdrant query_text top_k w).2) /\
      trace (DemoApp.search_qdrant query_text top_k w).2
      = trace w ++ [EmbeddingsCreate (lit "text-embedding-3-small") query_text]) \/
  (exists query_vec e1,
      openai_embeddings_create (lit "text-embedding-3-small") query_text (env w)
      = (Ok query_vec, e1) /\
      trace (DemoApp.search_qdrant query_text top_k w).2
      = trace w ++ [EmbeddingsCreate (lit "text-embedding-3-small") query_text;
                    QueryPoints DemoApp.COLLECTION_NAME query_vec top_k true] /\
      match (qdrant_query_points DemoApp.COLLECTION_NAME query_vec top_k true e1).1 with
      | Ok _ => exists r, (DemoApp.search_qdrant query_text top_k w).1 = Return r
      | Err x => (DemoApp.search_qdrant query_text top_k w).1 = Raise x
      end).
Proof.
  unfold DemoApp.search_qdrant, DemoApp.embed_text, bind, request, ret.
  destruct (openai_embeddings_create _ query_text (env w)) as [[vec|x] e1] eqn:Hemb.
  - right. exists vec, e1. split; [done|]. cbn [env trace].
    destruct (qdrant_query_points _ vec top_k true e1) as [[points|x] e2]; cbn [env trace fst snd].
    + split; [destruct points; cbn [snd trace]; by rewrite <- app_assoc|].
      destruct points; by eexists.
    + split; [by rewrite <- app_assoc|done].
  - left. exists x. by repeat split.
Qed.

(** ** [handle_query] *)

Section HandleQuery.
Context `{DemoChat.ChatServices}.
Import DemoChat.

Lemma ask_llm_outcome (question context : str) (w : chat_world) :
  (ask_llm question context w).1 <> Diverge /\
  exists rest, ctrace (ask_llm question context w).2
               = ctrace w ++ ChatCompletion (lit "gpt-4o-mini")
                               [(lit "system", SYSTEM_PROMPT);
                                (lit "user", user_content question context)] :: rest /\
               rest = [].
Proof.
  unfold ask_llm, cbind, crequest.
  destruct (openai_chat_completions_create _ _ (cenv w)) as [[[answer|]|x] e1];
    (split; [done|by exists []]).
Qed.

Lemma lift_search_outcome (question : str) (w : chat_world) :
  (lift (DemoApp.search_qdrant question 5) w).1 <> Diverge /\
  exists evs, ctrace (lift (DemoApp.search_qdrant question 5) w).2 = ctrace w ++ evs /\
              Forall (fun ev => ~ is_transcription ev) evs.
Proof.
  unfold lift, DemoApp.search_qdrant, DemoApp.embed_text, bind, request, ret.
  cbn [env trace].
  destruct (openai_embeddings_create _ question (cenv w)) as [[vec|x] e1]; cbn [env trace].
  - destruct (qdrant_query_points _ vec 5 true e1) as [[points|x] e2]; cbn [env trace].
    + destruct points; (split; [done|]); eexists; (split; [reflexivity|]);
        repeat constructor; by intros [].
    + split; [done|]. eexists. split; [reflexivity|]. repeat constructor; by intros [].
  - split; [done|]. eexists. split; [reflexivity|]. repeat constructor; by intros [].
Qed.

Lemma answer_question_outcome (question : str) (w : chat_world) :
  (answer_question question w).1 <> Diverge /\
  exists evs, ctrace (answer_question question w).2 = ctrace w ++ evs /\
              Forall (fun ev => ~ is_transcription ev) evs.
Proof.
  unfold answer_question. destruct question as [|c q].
  { split; [done|]. exists []. by rewrite app_nil_r. }
  unfold cbind. destruct (lift_search_outcome (c :: q) w) as [Hd (e1 & Ht1 & Hf1)].
  destruct (lift (DemoApp.search_qdrant (c :: q) 5) w) as [[[context debug]|x|] w1];
    simpl in *; [|split; [done|eauto]|done].
  destruct (ask_llm_outcome (c :: q) context w1) as [Hd2 (rest & Ht2 & ->)].
  destruct (ask_llm (c :: q) context w1) as [[answer|x|] w2]; simpl in *; [| |done].
  - split; [done|]. eexists. rewrite Ht2, Ht1, <- app_assoc. split; [reflexivity|].
    apply Forall_app. split; [done|]. repeat constructor. by intros [].
  - split; [done|]. eexists. rewrite Ht2, Ht1, <- app_assoc. split; [reflexivity|].
    apply Forall_app. split; [done|]. repeat constructor. by intros [].
Qed.

End HandleQuery.

(** X18: no exception that is an [Exception] leaves [handle_query]:
    whatever the question and the audio file, and whether each
    collaborator answers or raises such an exception, it returns a
    text. *)
Theorem handle_query_lets_no_exception_out `{DemoChat.ChatServices}
        (text_question audio_file : option str) (w : DemoChat.chat_world) :
  exists text, (DemoChat.handle_query text_question audio_file w).1 = Return text.
Proof.
  unfold DemoChat.handle_query, DemoChat.ctry.
  set (body := match strip (default [] text_question), audio_file with
               | [], Some (c :: path) => _
               | _, _ => _
               end).
  assert (Hbody : (body w).1 <> Diverge).
  { subst body. destruct (strip (default [] text_question)) as [|c q].
    - destruct audio_file as [[|a path]|];
        [apply (proj1 (answer_question_outcome [] w)) |
        | apply (proj1 (answer_question_outcome [] w))].
      cbv [DemoChat.cbind DemoChat.ctry DemoChat.transcribe_audio DemoChat.crequest
             DemoChat.cret].
      destruct (DemoChat.os_open_rb (a :: path) (DemoChat.cenv w)) as [[[]|x] e0];
        cbn [DemoChat.cenv DemoChat.ctrace]; [|done].
      destruct (DemoChat.openai_audio_transcriptions_create (lit "gpt-4o-transcribe")
                  (a :: path) e0)
        as [[text|x] e1]; simpl; [|done].
      apply (proj1 (answer_question_outcome _ _)).
    - destruct audio_file as [[|a path]|];
        apply (proj1 (answer_question_outcome (c :: q) w)). }
  destruct (body w) as [[text|x|] w1]; simpl in *; [by eexists| |done].
  unfold DemoChat.cbind, DemoChat.cemit, DemoChat.cret. by eexists.
Qed.

(** X19: with no text (none, empty or blank) and no audio file,
    [handle_query] asks for a question and sends no request at all. *)
Theorem handle_query_asks_for_a_question `{DemoChat.ChatServices}
        (text_question audio_file : option str) (w : DemoChat.chat_world) :
  strip (default [] text_question) = [] ->
  audio_file = None \/ audio_file = Some [] ->
  DemoChat.handle_query text_question audio_file w = (Return DemoChat.ask_for_question, w).
Proof.
  intros Hq Ha. unfold DemoChat.handle_query, DemoChat.ctry. rewrite Hq.
  by destruct Ha as [->| ->].
Qed.

Lemma handle_query_asks_for_a_question_witness :
  (@DemoChat.handle_query _ InMemoryChat.chat_services (Some (lit "   ")) None chat_fresh).1
  = Return DemoChat.ask_for_question.
Proof.
  rewrite (handle_query_asks_for_a_question (Some (lit "   ")) None chat_fresh);
    [reflexivity | vm_compute; reflexivity | by left].
Defined.

(** X20: a question given as text wins over the audio file: when the text
    is not blank, no transcription is requested. *)
Theorem handle_query_prefers_text `{DemoChat.ChatServices}
        (text_question audio_file : option str) (w : DemoChat.chat_world) :
  strip (default [] text_question) <> [] ->
  exists evs,
    DemoChat.ctrace (DemoChat.handle_query text_question audio_file w).2
    = DemoChat.ctrace w ++ evs /\
    Forall (fun ev => ~ is_transcription ev) evs.
Proof.
  intros Hq. unfold DemoChat.handle_query, DemoChat.ctry.
  destruct (strip (default [] text_question)) as [|c q]; [done|].
  destruct (answer_question_outcome (c :: q) w) as [Hd (evs & Ht & Hf)].
  assert (Hcases : forall body : DemoChat.C str,
             body = DemoChat.answer_question (c :: q) ->
             exists evs0,
               DemoChat.ctrace
                 (match body w with
                  | (Raise e, w') =>
                      DemoChat.cbind (DemoChat.cemit (DemoChat.PrintExc e))
                        (fun _ => DemoChat.cret (DemoChat.internal_error e)) w'
                  | r => r
                  end).2 = DemoChat.ctrace w ++ evs0 /\
               Forall (fun ev => ~ is_transcription ev) evs0).
  { intros body ->.
    destruct (DemoChat.answer_question (c :: q) w) as [[text|x|] w1]; simpl in *;
      [eauto| |done].
    unfold DemoChat.cbind, DemoChat.cemit, DemoChat.cret. simpl. rewrite Ht.
    exists (evs ++ [DemoChat.PrintExc x]). rewrite app_assoc. split; [done|].
    apply Forall_app. split; [done|]. repeat constructor. by intros []. }
  destruct audio_file as [[|a path]|]; by apply Hcases.
Qed.

Lemma handle_query_prefers_text_witness :
  exists evs,
    DemoChat.ctrace (@DemoChat.handle_query _ InMemoryChat.chat_services
                       (Some (lit " Что с НДС? ")) (Some (lit "question.wav")) chat_fresh).2
    = DemoChat.ctrace chat_fresh ++ evs /\
    Forall (fun ev => ~ is_transcription ev) evs.
Proof.
  apply handle_query_prefers_text. vm_compute. discriminate.
Defined.

(** X21: with no text and an audio file that cannot be transcribed,
    [handle_query] returns the message that the audio could not be
    recognised, with the text of the exception. When the file cannot be
    opened, no transcription is requested; when it is opened and the
    request fails, that request is the only one sent. Either way nothing
    is printed, and neither the store nor the chat model is asked
    anything. *)
Theorem handle_query_reports_failed_transcription `{DemoChat.ChatServices}
        (text_question : option str) (c : codepoint) (path : str)
        (w : DemoChat.chat_world) (x : exn) (e1 : Env)
        (sent : list DemoChat.chat_event) :
  strip (default [] text_question) = [] ->
  (DemoChat.os_open_rb (c :: path) (DemoChat.cenv w) = (Err x, e1) /\
   sent = [DemoChat.OpenFile (c :: path)]) \/
  (exists e0,
      DemoChat.os_open_rb (c :: path) (DemoChat.cenv w) = (Ok tt, e0) /\
      DemoChat.openai_audio_transcriptions_create (lit "gpt-4o-transcribe") (c :: path) e0
      = (Err x, e1) /\
      sent = [DemoChat.OpenFile (c :: path);
              DemoChat.Transcription (lit "gpt-4o-transcribe") (c :: path)]) ->
  DemoChat.handle_query text_question (Some (c :: path)) w
  = (Return (DemoChat.audio_failed x),
     {| DemoChat.cenv := e1; DemoChat.ctrace := DemoChat.ctrace w ++ sent |}).
Proof.
  intros Hq Hfail. unfold DemoChat.handle_query. rewrite Hq.
  cbv [DemoChat.cbind DemoChat.ctry DemoChat.transcribe_audio DemoChat.crequest
         DemoChat.cret].
  destruct Hfail as [[Hopen ->] | (e0 & Hopen & Herr & ->)]; rewrite Hopen.
  - reflexivity.
  - cbn [DemoChat.cenv DemoChat.ctrace]. rewrite Herr, <- app_assoc. reflexivity.
Qed.

Lemma handle_query_reports_failed_transcription_witness :
  DemoChat.ctrace (@DemoChat.handle_query _ InMemoryChat.chat_services None
                     (Some (109%N :: lit "issing.wav")) chat_fresh).2
  = DemoChat.ctrace chat_fresh ++ [DemoChat.OpenFile (109%N :: lit "issing.wav")] /\
  DemoChat.ctrace (@DemoChat.handle_query _ InMemoryChat.chat_services None
                     (Some (115%N :: lit "ilence.wav")) chat_silent).2
  = DemoChat.ctrace chat_silent
      ++ [DemoChat.OpenFile (115%N :: lit "ilence.wav");
          DemoChat.Transcription (lit "gpt-4o-transcribe") (115%N :: lit "ilence.wav")].
Proof.
  split.
  - refine (f_equal (fun r => DemoChat.ctrace r.2)
              (@handle_query_reports_failed_transcription _ InMemoryChat.chat_services
                 None 109%N (lit "issing.wav") chat_fresh
                 (Exception (lit "[Errno 2] No such file or directory"))
                 (env InMemory.fresh_collection) _ _ _)).
    + reflexivity.
    + left. split; [vm_compute; reflexivity|reflexivity].
  - refine (f_equal (fun r => DemoChat.ctrace r.2)
              (@handle_query_reports_failed_transcription _ InMemoryChat.chat_services
                 None 115%N (lit "ilence.wav") chat_silent
                 (Exception (lit "Audio file is empty"))
                 silent_audio_env _ _ _)).
    + reflexivity.
    + right. exists silent_audio_env.
      split; [vm_compute; reflexivity|]. split; [vm_compute; reflexivity|reflexivity].
Defined.

(** X22: when the search finds no point, the question still goes to the
    chat model: the [user] message carries the question and the warning
    that no context was found, and the reply shows the question, the
    stripped answer and the trace line, with no context section. *)
Theorem handle_query_without_context `{DemoChat.ChatServices}
        (text_question audio_file : option str) (w : DemoChat.chat_world)
        (c : codepoint) (q answer : str) (query_vec : list float) (e1 e2 e3 : Env) :
  strip (default [] text_question) = c :: q ->
  openai_embeddings_create (lit "text-embedding-3-small") (c :: q) (DemoChat.cenv w)
  = (Ok query_vec, e1) ->
  qdrant_query_points DemoApp.COLLECTION_NAME query_vec 5 true e1 = (Ok [], e2) ->
  DemoChat.openai_chat_completions_create (lit "gpt-4o-mini")
    [(lit "system", DemoChat.SYSTEM_PROMPT);
     (lit "user",
      lit "Вопрос пользователя:" ++ [NEWLINE] ++ (c :: q) ++ [NEWLINE] ++ [NEWLINE]
        ++ lit "Внимание: контекст из базы знаний не найден. "
        ++ lit "Если ты не уверен, ответь, что информации недостаточно для точного ответа.")]
    e2 = (Ok (Some answer), e3) ->
  DemoChat.handle_query text_question audio_file w
  = (Return
       (join [NEWLINE]
          [lit "**Вопрос:** " ++ (c :: q) ++ [NEWLINE];
           lit "**Ответ ассистента:**" ++ [NEWLINE] ++ strip answer;
           [NEWLINE] ++ lit "---" ++ [NEWLINE]
             ++ lit "<details><summary>Отладочная информация (для демо)</summary>"
             ++ [NEWLINE] ++ [NEWLINE];
           lit "Ничего не найдено в коллекции.";
           [NEWLINE] ++ lit "</details>"]),
     {| DemoChat.cenv := e3;
        DemoChat.ctrace := DemoChat.ctrace w
          ++ [DemoChat.Core (EmbeddingsCreate (lit "text-embedding-3-small") (c :: q));
              DemoChat.Core (QueryPoints DemoApp.COLLECTION_NAME query_vec 5 true);
              DemoChat.ChatCompletion (lit "gpt-4o-mini")
                [(lit "system", DemoChat.SYSTEM_PROMPT);
                 (lit "user",
                  lit "Вопрос пользователя:" ++ [NEWLINE] ++ (c :: q)
                    ++ [NEWLINE] ++ [NEWLINE]
                    ++ lit "Внимание: контекст из базы знаний не найден. "
                    ++ lit "Если ты не уверен, ответь, что информации недостаточно для точного ответа.")]] |}).
Proof.
  intros Hq Hemb Hquery Hchat.
  set (result := (Return _, _)).
  assert (Hanswer : DemoChat.answer_question (c :: q) w = result).
  { subst result.
    cbv [DemoChat.answer_question DemoChat.cbind DemoChat.lift DemoChat.ask_llm
           DemoChat.crequest DemoChat.cret DemoApp.search_qdrant DemoApp.embed_text
           bind request ret].
    cbn [env trace DemoChat.cenv DemoChat.ctrace].
    rewrite Hemb. cbn [env trace]. rewrite Hquery.
    cbn [env trace DemoChat.cenv DemoChat.ctrace].
    unfold DemoChat.user_content, DemoChat.nl. rewrite Hchat.
    cbn [DemoChat.cenv DemoChat.ctrace].
    unfold DemoChat.reply, DemoChat.nl. rewrite app_nil_l.
    rewrite fmap_app, !fmap_cons, fmap_nil, app_nil_l, <- app_assoc.
    reflexivity. }
  unfold DemoChat.handle_query, DemoChat.ctry. rewrite Hq.
  assert (Hbody : forall body : DemoChat.C str,
             body = DemoChat.answer_question (c :: q) ->
             match body w with
             | (Raise e, w') =>
                 DemoChat.cbind (DemoChat.cemit (DemoChat.PrintExc e))
                   (fun _ => DemoChat.cret (DemoChat.internal_error e)) w'
             | r => r
             end = result).
  { intros body ->. by rewrite Hanswer. }
  destruct audio_file as [[|a path]|]; by apply Hbody.
Qed.

Lemma handle_query_without_context_witness :
  (@DemoChat.handle_query _ InMemoryChat.chat_services (Some (1053%N :: lit "ДС?")) None
     chat_fresh).1
  = Return
      (join [NEWLINE]
         [lit "**Вопрос:** " ++ (1053%N :: lit "ДС?") ++ [NEWLINE];
          lit "**Ответ ассистента:**" ++ [NEWLINE]
            ++ strip (lit "  Данных недостаточно.  ");
          [NEWLINE] ++ lit "---" ++ [NEWLINE]
            ++ lit "<details><summary>Отладочная информация (для демо)</summary>"
            ++ [NEWLINE] ++ [NEWLINE];
          lit "Ничего не найдено в коллекции.";
          [NEWLINE] ++ lit "</details>"]).
Proof.
  refine (f_equal fst
            (@handle_query_without_context _ InMemoryChat.chat_services
               (Some (1053%N :: lit "ДС?")) None chat_fresh 1053%N (lit "ДС?")
               (lit "  Данных недостаточно.  ") [4]
               (InMemory.embeddings_create (lit "text-embedding-3-small")
                  (1053%N :: lit "ДС?") (env InMemory.fresh_collection)).2
               (InMemory.embeddings_create (lit "text-embedding-3-small")
                  (1053%N :: lit "ДС?") (env InMemory.fresh_collection)).2
               (InMemory.embeddings_create (lit "text-embedding-3-small")
                  (1053%N :: lit "ДС?") (env InMemory.fresh_collection)).2
               _ _ _ _)).
  - vm_compute. reflexivity.
  - vm_compute. reflexivity.
  - vm_compute. reflexivity.
  - vm_compute. reflexivity.
Defined.

(** X23: when the store refuses the search, [handle_query] does not
    raise: the exception is printed, the chat model is not asked, and the
    reply is the internal-error message with the text of the exception. *)
Theorem handle_query_reports_internal_error `{DemoChat.ChatServices}
        (text_question audio_file : option str) (w : DemoChat.chat_world)
        (c : codepoint) (q : str) (query_vec : list float) (x : exn) (e1 e2 : Env) :
  strip (default [] text_question) = c :: q ->
  openai_embeddings_create (lit "text-embedding-3-small") (c :: q) (DemoChat.cenv w)
  = (Ok query_vec, e1) ->
  qdrant_query_points DemoApp.COLLECTION_NAME query_vec 5 true e1 = (Err x, e2) ->
  DemoChat.handle_query text_question audio_file w
  = (Return (DemoChat.internal_error x),
     {| DemoChat.cenv := e2;
        DemoChat.ctrace := DemoChat.ctrace w
          ++ [DemoChat.Core (EmbeddingsCreate (lit "text-embedding-3-small") (c :: q));
              DemoChat.Core (QueryPoints DemoApp.COLLECTION_NAME query_vec 5 true);
              DemoChat.PrintExc x] |}).
Proof.
  intros Hq Hemb Hquery.
  set (result := (Return _, _)).
  assert (Hbody : forall body : DemoChat.C str,
             body = DemoChat.answer_question (c :: q) ->
             match body w with
             | (Raise e, w') =>
                 DemoChat.cbind (DemoChat.cemit (DemoChat.PrintExc e))
                   (fun _ => DemoChat.cret (DemoChat.internal_error e)) w'
             | r => r
             end = result).
  { intros body ->. subst result.
    cbv [DemoChat.answer_question DemoChat.cbind DemoChat.lift DemoChat.cemit
           DemoChat.cret DemoApp.search_qdrant DemoApp.embed_text bind request ret].
    cbn [env trace DemoChat.cenv DemoChat.ctrace].
    rewrite Hemb. cbn [env trace]. rewrite Hquery.
    cbn [env trace DemoChat.cenv DemoChat.ctrace].
    rewrite fmap_app, !fmap_cons, fmap_nil, app_nil_l, <- !app_assoc.
    reflexivity. }
  unfold DemoChat.handle_query, DemoChat.ctry. rewrite Hq.
  destruct audio_file as [[|a path]|]; by apply Hbody.
Qed.

Lemma handle_query_reports_internal_error_witness :
  (@DemoChat.handle_query _ InMemoryChat.chat_services (Some (1053%N :: lit "ДС?")) None
     chat_unauthorized).1
  = Return (DemoChat.internal_error (UnexpectedResponse 401 (lit "Unauthorized"))).
Proof.
  refine (f_equal fst
            (@handle_query_reports_internal_error _ InMemoryChat.chat_services
               (Some (1053%N :: lit "ДС?")) None chat_unauthorized 1053%N (lit "ДС?")
               [4] (UnexpectedResponse 401 (lit "Unauthorized"))
               (InMemory.embeddings_create (lit "text-embedding-3-small")
                  (1053%N :: lit "ДС?") InMemory.unauthorized_env).2
               (InMemory.embeddings_create (lit "text-embedding-3-small")
                  (1053%N :: lit "ДС?") InMemory.unauthorized_env).2
               _ _ _)).
  - vm_compute. reflexivity.
  - vm_compute. reflexivity.
  - vm_compute. reflexivity.
Defined.

(** ** The parser: the links of the knowledge page *)

Section Links.
Context `{Parser.Web}.

Lemma article_title_kept (title : str) :
  10 <= len title -> bool_decide (title = []) || (len title <? 10) = false.
Proof.
  intros Hlen. rewrite orb_false_iff. split.
  - apply bool_decide_eq_false. intros ->. by compute in Hlen.
  - by apply Z.ltb_ge.
Qed.

Lemma article_title_dropped (title : str) :
  bool_decide (title = []) || (len title <? 10) = false -> 10 <= len title.
Proof. rewrite orb_false_iff. intros [_ Hlen]. by apply Z.ltb_ge. Qed.

Lemma scan_anchors_invariant (limit : Z) (anchors : list (str * list str)) :
  forall links,
    NoDup links.*1 ->
    exists new,
      Parser.scan_anchors anchors limit links = links ++ new /\
      NoDup (links ++ new).*1 /\
      Forall (fun link => exists a, a ∈ anchors /\ is_article_anchor a /\ link = link_of a)
             new /\
      len (links ++ new) <= Z.max limit (len links + 1).
Proof.
  induction anchors as [|[href strings] rest IH]; intros links Hnodup.
  - exists []. rewrite app_nil_r. simpl. repeat split; [done|constructor|lia].
  - assert (Hskip : (exists new,
               Parser.scan_anchors rest limit links = links ++ new /\
               NoDup (links ++ new).*1 /\
               Forall (fun link => exists a, a ∈ (href, strings) :: rest /\
                                             is_article_anchor a /\ link = link_of a) new /\
               len (links ++ new) <= Z.max limit (len links + 1))).
    { destruct (IH links Hnodup) as (new & Hr & Hn & Hall & Hlen).
      exists new. repeat split; [done|done| |done].
      eapply Forall_impl; [exact Hall|]. intros link (a & Ha & Hq & ->).
      exists a. split; [by right|done]. }
    simpl.
    destruct (Parser.startswith href (lit "/club/")) eqn:Hclub; simpl; [|done].
    destruct (Parser.service_page href) eqn:Hpage; [done|].
    destruct (bool_decide (join [SPACE] strings = []) || (len (join [SPACE] strings) <? 10))
      eqn:Htitle; [done|].
    apply article_title_dropped in Htitle.
    destruct (bool_decide_reflect
                (Parser.urljoin Parser.BASE_URL href ∈ links.*1)) as [Hin|Hnew]; [done|].
    set (link := (Parser.urljoin Parser.BASE_URL href, join [SPACE] strings)).
    assert (Hlink : exists a, a ∈ (href, strings) :: rest /\
                              is_article_anchor a /\ link = link_of a).
    { exists (href, strings). split; [by left|]. by repeat split. }
    assert (Hnodup' : NoDup (links ++ [link]).*1).
    { rewrite fmap_app. apply NoDup_app. split; [done|]. split.
      - intros x Hx Hx'. apply list_elem_of_singleton in Hx'. by subst.
      - apply NoDup_singleton. }
    assert (Hlen' : len (links ++ [link]) = len links + 1).
    { unfold len. rewrite length_app. simpl. lia. }
    destruct (Z.leb_spec limit (len (links ++ [link]))) as [Hfull|Hroom].
    + exists [link]. repeat split; [done| |lia]. by constructor.
    + destruct (IH (links ++ [link]) Hnodup') as (new & Hr & Hn & Hall & Hlen).
      exists (link :: new). rewrite Hr, <- app_assoc. simpl.
      rewrite <- app_assoc in Hn, Hlen. simpl in Hn, Hlen.
      repeat split; [done| |lia].
      constructor; [done|].
      eapply Forall_impl; [exact Hall|]. intros l (a & Ha & Hq & ->).
      exists a. split; [by right|done].
Qed.

Lemma scan_anchors_extends (limit : Z) (anchors : list (str * list str)) :
  forall links, exists new, Parser.scan_anchors anchors limit links = links ++ new.
Proof.
  induction anchors as [|[href strings] rest IH]; intros links; simpl.
  - exists []. by rewrite app_nil_r.
  - repeat case_match; try apply IH.
    + by eexists.
    + destruct (IH (links ++ [(Parser.urljoin Parser.BASE_URL href,
                                join [SPACE] strings)])) as [new ->].
      rewrite <- app_assoc. by eexists.
Qed.

Lemma scan_anchors_reaches (limit : Z) (anchors : list (str * list str)) :
  forall links,
    len (Parser.scan_anchors anchors limit links) < limit ->
    forall a, a ∈ anchors -> is_article_anchor a ->
              (link_of a).1 ∈ (Parser.scan_anchors anchors limit links).*1.
Proof.
  induction anchors as [|[href strings] rest IH]; intros links Hlen a Ha Hq.
  - by apply elem_of_nil in Ha.
  - revert Hlen. simpl.
    destruct (Parser.startswith href (lit "/club/")) eqn:Hclub; simpl.
    2:{ intros Hlen. apply elem_of_cons in Ha as [->|Ha]; [|by apply IH].
        destruct Hq as (Hc & _). simpl in Hc. congruence. }
    destruct (Parser.service_page href) eqn:Hpage.
    { intros Hlen. apply elem_of_cons in Ha as [->|Ha]; [|by apply IH].
      destruct Hq as (_ & Hp & _). simpl in Hp. congruence. }
    destruct (bool_decide (join [SPACE] strings = []) || (len (join [SPACE] strings) <? 10))
      eqn:Htitle.
    { intros Hlen. apply elem_of_cons in Ha as [->|Ha]; [|by apply IH].
      destruct Hq as (_ & _ & Ht). simpl in Ht.
      apply article_title_kept in Ht. congruence. }
    destruct (bool_decide_reflect
                (Parser.urljoin Parser.BASE_URL href ∈ links.*1)) as [Hin|Hnew].
    { intros Hlen. apply elem_of_cons in Ha as [->|Ha]; [|by apply IH].
      destruct (scan_anchors_extends limit rest links) as [new ->].
      rewrite fmap_app. apply elem_of_app. by left. }
    set (link := (Parser.urljoin Parser.BASE_URL href, join [SPACE] strings)).
    destruct (Z.leb_spec limit (len (links ++ [link]))) as [Hfull|Hroom]; [lia|].
    intros Hlen. apply elem_of_cons in Ha as [->|Ha]; [|by apply IH].
    destruct (scan_anchors_extends limit rest (links ++ [link])) as [new ->].
    rewrite !fmap_app. apply elem_of_app. left. apply elem_of_app. right.
    simpl. by left.
Qed.

(** X24: the links that [collect_article_links] gathers from the anchors
    of the page: no address twice, each made from an anchor whose [href]
    starts with [/club/], names no service page, and whose title has ten
    characters or more; and at most [limit] of them, or one when
    [limit] is below one. *)
Theorem scan_anchors_sound (anchors : list (str * list str)) (limit : Z) :
  NoDup (Parser.scan_anchors anchors limit []).*1 /\
  Forall (fun link => exists a, a ∈ anchors /\ is_article_anchor a /\ link = link_of a)
         (Parser.scan_anchors anchors limit []) /\
  len (Parser.scan_anchors anchors limit []) <= Z.max limit 1.
Proof.
  destruct (scan_anchors_invariant limit anchors []) as (new & -> & Hn & Hall & Hlen);
    [constructor|].
  simpl in *. repeat split; [done|done|]. unfold len in *. simpl in *. lia.
Qed.

(** X25: when fewer than [limit] links were gathered, none was left out:
    the address of every article anchor of the page is among them. *)
Theorem scan_anchors_complete (anchors : list (str * list str)) (limit : Z)
        (a : str * list str) :
  len (Parser.scan_anchors anchors limit []) < limit ->
  a ∈ anchors -> is_article_anchor a ->
  (link_of a).1 ∈ (Parser.scan_anchors anchors limit []).*1.
Proof. intros Hlen Ha Hq. by apply scan_anchors_reaches. Qed.

End Links.

Lemma scan_anchors_complete_witness :
  (@link_of InMemoryWeb.web (lit "/club/nds-2026", [lit "Читать далее про НДС"])).1
  ∈ (@Parser.scan_anchors InMemoryWeb.web InMemoryWeb.listing_anchors 30 []).*1.
Proof.
  apply (@scan_anchors_complete InMemoryWeb.web).
  - vm_compute. reflexivity.
  - unfold InMemoryWeb.listing_anchors. set_solver.
  - repeat split; vm_compute; congruence.
Defined.

(** ** The parser: the file of an article *)

Lemma lstrip_spec (s : str) :
  exists t, s = t ++ lstrip s /\ Forall (fun c => isspace c = true) t /\
            match lstrip s with [] => True | c :: _ => isspace c = false end.
Proof.
  induction s as [|c r (t & Hs & Ht & Hh)]; simpl.
  - exists []. by repeat split.
  - destruct (isspace c) eqn:Hc.
    + exists (c :: t). simpl. rewrite <- Hs. repeat split; [|done]. by constructor.
    + exists []. by repeat split.
Qed.

Lemma rstrip_spec (s : str) :
  exists t, s = rstrip s ++ t /\ Forall (fun c => isspace c = true) t /\
            match last (rstrip s) with None => True | Some c => isspace c = false end.
Proof.
  unfold rstrip. destruct (lstrip_spec (rev s)) as (t & Hs & Ht & Hh).
  exists (rev t). repeat split.
  - rewrite <- rev_app_distr, <- Hs. by rewrite rev_involutive.
  - by apply Forall_rev.
  - destruct (lstrip (rev s)) as [|c r]; [done|].
    simpl. by rewrite last_snoc.
Qed.

Lemma strip_spec (s : str) :
  exists a b, s = a ++ strip s ++ b /\
              Forall (fun c => isspace c = true) a /\
              Forall (fun c => isspace c = true) b /\
              match strip s with [] => True | c :: _ => isspace c = false end /\
              match last (strip s) with None => True | Some c => isspace c = false end.
Proof.
  unfold strip. destruct (lstrip_spec s) as (a & Hs & Ha & Hh).
  destruct (rstrip_spec (lstrip s)) as (b & Hl & Hb & Hlast).
  exists a, b. repeat split; [by rewrite <- Hl|done|done| |done].
  destruct (rstrip (lstrip s)) as [|c r]; [done|].
  rewrite Hl in Hh. done.
Qed.

Lemma split_from_spaces (t : str) :
  Forall (fun c => isspace c = true) t ->
  forall word, split_from t word = match word with [] => [] | _ => [word] end.
Proof.
  induction 1 as [|c r Hc Hr IH]; intros word; simpl; [done|].
  rewrite Hc, IH. by destruct word.
Qed.

Lemma split_from_lead (t s : str) :
  Forall (fun c => isspace c = true) t -> split_from (t ++ s) [] = split_from s [].
Proof. induction 1 as [|c r Hc Hr IH]; simpl; [done|]. by rewrite Hc. Qed.

Lemma split_from_trail (s t : str) :
  Forall (fun c => isspace c = true) t ->
  forall word, split_from (s ++ t) word = split_from s word.
Proof.
  intros Ht. induction s as [|c r IH]; intros word; simpl.
  - by apply split_from_spaces.
  - by rewrite !IH.
Qed.

Lemma split_from_between (a b : str) (c : codepoint) :
  isspace c = true ->
  forall word, split_from (a ++ c :: b) word = split_from a word ++ split_from b [].
Proof.
  intros Hc. induction a as [|x r IH]; intros word; simpl.
  - rewrite Hc. by destruct word.
  - rewrite !IH. by destruct (isspace x), word.
Qed.

Lemma split_strip (s : str) : split (strip s) = split s.
Proof.
  destruct (strip_spec s) as (a & b & Hs & Ha & Hb & _).
  unfold split. rewrite Hs at 2.
  by rewrite split_from_lead, split_from_trail.
Qed.

Lemma split_from_replace_newline (s : str) :
  forall word, split_from (Parser.replace s NEWLINE [SPACE]) word = split_from s word.
Proof.
  unfold Parser.replace. induction s as [|c r IH]; intros word; [done|].
  simpl. destruct (N.eqb_spec c NEWLINE) as [->|Hc]; simpl.
  - by rewrite !IH.
  - by rewrite !IH.
Qed.

Lemma replace_newline_free (s : str) :
  Forall (fun c => c <> NEWLINE) (Parser.replace s NEWLINE [SPACE]).
Proof.
  unfold Parser.replace. induction s as [|c r IH]; [constructor|].
  simpl. destruct (N.eqb_spec c NEWLINE) as [->|Hc]; simpl; by constructor.
Qed.

(** X26: the title that [save_article] writes at the head of the file
    holds no line feed, and no whitespace before or after. *)
Theorem safe_title_one_line (title : str) :
  Forall (fun c => c <> NEWLINE) (Parser.safe_title title) /\
  strip (Parser.safe_title title) = Parser.safe_title title.
Proof.
  unfold Parser.safe_title.
  destruct (strip_spec (Parser.replace title NEWLINE [SPACE]))
    as (a & b & Hs & _ & _ & Hh & Hl).
  split.
  - pose proof (replace_newline_free title) as Hfree. rewrite Hs in Hfree.
    apply Forall_app in Hfree as [_ Hfree]. by apply Forall_app in Hfree as [Hfree _].
  - by apply strip_id.
Qed.

(** X27: what [split_text] makes of the file of an article before it cuts:
    the words of the title, then the words of the text, one space
    between two words; the blank line after the title leaves no trace. *)
Theorem normalize_article_text (title content : str) :
  normalize (Parser.article_text title content)
  = join [SPACE] (split title ++ split content).
Proof.
  unfold normalize, Parser.article_text. rewrite split_strip. f_equal.
  change ([NEWLINE; NEWLINE] ++ content) with (NEWLINE :: NEWLINE :: content).
  unfold split. rewrite split_from_between by reflexivity. f_equal.
  fold (split (Parser.safe_title title)). unfold Parser.safe_title.
  rewrite split_strip. apply split_from_replace_newline.
Qed.




(** ** The parser: a whole run *)

Section ParserRun.
Context `{Parser.Web}.

Lemma written_paths_app (a b : list Parser.web_event) :
  Parser.written_paths (a ++ b) = Parser.written_paths a ++ Parser.written_paths b.
Proof. apply omap_app. Qed.






Lemma print_paths_log (paths : list str) :
  forall w, exists evs,
    Parser.print_paths paths w = (Return tt, {| Parser.site := Parser.site w;
                                                Parser.log := Parser.log w ++ evs |}) /\
    Parser.written_paths evs = [].
Proof.
  induction paths as [|p rest IH]; intros w.
  - exists []. rewrite app_nil_r. by destruct w.
  - cbn [Parser.print_paths]. cbv [Parser.wbind Parser.wprint Parser.wemit].
    destruct (IH {| Parser.site := Parser.site w;
                    Parser.log := Parser.log w ++ [Parser.Printed (lit " -" ++ [SPACE] ++ p)] |})
      as (evs & -> & Hw).
    cbn [Parser.site Parser.log]. rewrite <- app_assoc.
    eexists. split; [reflexivity|]. by rewrite written_paths_app, Hw.
Qed.


Section DiskWorks.
Hypothesis makedirs_works : forall path s, (Parser.os_makedirs path s).1 = Ok tt.
Hypothesis write_works : forall path text s, (Parser.os_write_file path text s).1 = Ok tt.

Lemma visit_returns (total i : Z) (url title : str) (saved : list str)
      (w : Parser.web_world) :
  exists saved', (Parser.visit total (i, (url, title)) saved w).1 = Return saved'.
Proof.
  cbv [Parser.visit Parser.wbind Parser.wprint Parser.wemit Parser.wtry Parser.wrequest
         Parser.wret Parser.save_article Parser.sleep].
  cbn [Parser.site Parser.log].
  destruct (Parser.session_get url (Parser.site w)) as [[html|x] s1]; [|by eexists].
  destruct (bool_decide (Parser.extract_article_text html = [])
            || (len (Parser.extract_article_text html) <? 200)); [by eexists|].
  cbn [Parser.site Parser.log].
  pose proof (makedirs_works Parser.OUTPUT_DIR s1) as Hmk.
  destruct (Parser.os_makedirs Parser.OUTPUT_DIR s1) as [[[]|x] s2]; [|done].
  cbn [Parser.site Parser.log].
  pose proof (write_works (Parser.article_path i)
                (Parser.article_text title (Parser.extract_article_text html)) s2) as Hwr.
  destruct (Parser.os_write_file (Parser.article_path i)
              (Parser.article_text title (Parser.extract_article_text html)) s2)
    as [[[]|x] s3]; [|done].
  by eexists.
Qed.

Lemma for_articles_returns (total : Z) (items : list (Z * (str * str))) :
  forall saved w,
    exists saved', (Parser.for_articles total items saved w).1 = Return saved'.
Proof.
  induction items as [|[i [url title]] rest IH]; intros saved w; [by eexists|].
  cbn [Parser.for_articles]. unfold Parser.wbind.
  destruct (visit_returns total i url title saved w) as [saved' Hv].
  destruct (Parser.visit total (i, (url, title)) saved w) as [[s| |] w1];
    cbn [fst] in Hv; [|done|done].
  apply IH.
Qed.

End DiskWorks.

(** X30: [main] ends normally once the list of articles has come and the
    disk takes what is written: a request for an article that fails, or a
    text that is too short, only makes it pass to the next article. *)
Theorem main_survives_failed_downloads (w : Parser.web_world) (html : str)
        (s1 : Parser.Site) :
  Parser.session_get Parser.BASE_URL (Parser.site w) = (Ok html, s1) ->
  (forall path s, (Parser.os_makedirs path s).1 = Ok tt) ->
  (forall path text s, (Parser.os_write_file path text s).1 = Ok tt) ->
  (Parser.main w).1 = Return tt.
Proof.
  intros Hget Hmk Hwr. unfold Parser.main, Parser.wbind at 1.
  cbv [Parser.collect_article_links Parser.wbind Parser.wprint Parser.wemit
         Parser.wrequest Parser.wret].
  cbn [Parser.site Parser.log]. rewrite Hget.
  destruct (Parser.scan_anchors (Parser.soup_anchors html) 30 []) as [|a0 rest0] eqn:E;
    [done|].
  match goal with
  | |- context [Parser.for_articles ?t ?items ?saved ?w0] =>
      destruct (for_articles_returns Hmk Hwr t items saved w0) as [saved' Hloop];
      destruct (Parser.for_articles t items saved w0) as [[s| |] w1];
      cbn [fst] in Hloop; [|done|done]
  end.
  match goal with
  | |- context [Parser.print_paths s ?w2] =>
      destruct (print_paths_log s w2) as (evs2 & -> & _)
  end.
  done.
Qed.

End ParserRun.

Lemma main_survives_failed_downloads_witness :
  (@Parser.main InMemoryWeb.web web_start).1 = Return tt.
Proof.
  apply (@main_survives_failed_downloads InMemoryWeb.web web_start
           InMemoryWeb.LISTING InMemoryWeb.one_article).
  - vm_compute. reflexivity.
  - reflexivity.
  - reflexivity.
Defined.
